(** * pyanalyze.checker: type-object cache, descriptor builder, virtual
    bases and the compatibility-assumption stack.

    Shallow embedding of [src/pyanalyze/checker.py].  The methods of
    [Checker] become functions in a state-and-exception monad over a record
    with the two mutable fields the methods touch ([type_object_cache] and
    [assumed_compatibilities]); the collaborators the module imports
    ([TypeshedFinder], the [safe] helpers, [get_mro], the option holding the
    base providers, the interpreter's attribute reads) are gathered in a
    record [World] that every definition takes as a parameter. *)

From stdpp Require Import base gmap sets list strings.
From Stdlib Require Import Permutation.


(** ** Exceptions and results *)

(** Instances of Python's [Exception] that the modelled operations can raise.
    [UserError n] stands for any exception raised by code outside this
    module (a provider, the body of a [with] block). *)
Inductive Exn :=
| TypeError
| AttributeError
| IndexError
| AssertionError
| NameError
| KeyError
| UserError (n : nat).

Global Instance Exn_eq_dec : EqDecision Exn.
Proof. solve_decision. Defined.

Inductive Result (A : Type) :=
| Ok (a : A)
| Raise (e : Exn).
Arguments Ok {A} a.
Arguments Raise {A} e.

Definition is_Ok {A} (r : Result A) : bool :=
  match r with Ok _ => true | Raise _ => false end.

(** ** Type keys, values and descriptors *)

(** [typ: Union[type, super, str]].  A class and a [super] proxy are runtime
    objects, identified by their identity; a synthetic type is its name. *)
Inductive TypeKey :=
| KType (id : nat)
| KSuper (id : nat)
| KStr (name : string).

Global Instance TypeKey_eq_dec : EqDecision TypeKey.
Proof. solve_decision. Defined.

Definition TypeKey_encode (k : TypeKey) : nat + (nat + string) :=
  match k with
  | KType n => inl n
  | KSuper n => inr (inl n)
  | KStr s => inr (inr s)
  end.

Definition TypeKey_decode (x : nat + (nat + string)) : TypeKey :=
  match x with
  | inl n => KType n
  | inr (inl n) => KSuper n
  | inr (inr s) => KStr s
  end.

Global Instance TypeKey_countable : Countable TypeKey.
Proof.
  apply (inj_countable' TypeKey_encode TypeKey_decode).
  by intros [].
Defined.

(** The builtin class [object]. *)
Definition object : TypeKey := KType 0.

(** What [ts_finder.get_bases_recursively] returns: [Value]s, of which only
    the [TypedValue]s (and subclasses) carry a [typ]. *)
Inductive Value :=
| TypedValue (typ : TypeKey)
| OtherValue (tag : nat).

(** Modelled from the spec: the dataclass [TypeObject] (module
    [type_object], not under src/).  A descriptor has the four fields the
    constructor calls of [_build_type_object] pass: the key, the ancestor
    set, the protocol flag (default [False]) and the protocol member names
    (default empty). *)
Record TypeObject := mkTypeObject {
  typ : TypeKey;
  base_classes : gset TypeKey;
  is_protocol : bool;
  protocol_members : gset string
}.

Global Instance TypeObject_eq_dec : EqDecision TypeObject.
Proof. solve_decision. Defined.

(** ** The collaborators *)

(** Outcome of reading an attribute of a runtime object: the value, an
    [AttributeError] because the attribute is absent, or another exception
    raised by the object's attribute machinery. *)
Inductive Attr (A : Type) :=
| Found (a : A)
| Missing
| Broken (e : Exn).
Arguments Found {A} a.
Arguments Missing {A}.
Arguments Broken {A} e.

(** [_BaseProvider = Callable[[Union[type, super]], Set[type]]]; a call
    either returns a set or raises. *)
Definition BaseProvider := TypeKey → Result (gset TypeKey).

Record World := mkWorld {
  (** [self.options.get_value_for(AdditionalBaseProviders)] *)
  providers : list BaseProvider;
  (** [self.ts_finder.get_bases_recursively(typ)] *)
  get_bases_recursively : TypeKey → list Value;
  (** [self.ts_finder.is_protocol(typ)] *)
  ts_is_protocol : TypeKey → bool;
  (** [self.ts_finder.get_all_attributes(base)] *)
  get_all_attributes : TypeKey → gset string;
  (** [safe.is_typing_name(obj, name)] *)
  is_typing_name : TypeKey → string → bool;
  (** [safe.is_instance_of_typing_name(obj, name)] *)
  is_instance_of_typing_name : TypeKey → string → bool;
  (** [type_object.get_mro(typ)] *)
  get_mro : TypeKey → list TypeKey;
  (** [sys.version_info >= (3, 10)] *)
  version_ge_3_10 : bool;
  (** the key names of [typ.__dict__] *)
  attr_dict : TypeKey → Attr (list string);
  (** the key names of [typ.__annotations__] *)
  attr_annotations : TypeKey → Attr (list string);
  (** the truth value of [typ._is_protocol] *)
  attr_is_protocol : TypeKey → Attr bool;
  (** [Some e] when [hash(typ)], and with it any dict operation on the key
      [typ], raises [e] *)
  hash_error : TypeKey → option Exn
}.

(** A plain attribute read [obj.name]. *)
Definition getattr {A} (a : Attr A) : Result A :=
  match a with
  | Found v => Ok v
  | Missing => Raise AttributeError
  | Broken e => Raise e
  end.

(** [hasattr(obj, name)]: only an [AttributeError] means "no". *)
Definition hasattr {A} (a : Attr A) : Result bool :=
  match a with
  | Found _ => Ok true
  | Missing => Ok false
  | Broken e => Raise e
  end.

(** Modelled from the spec: [safe.safe_getattr(value, attr, default)] (module
    [safe], not under src/), a defensive attribute read that yields the
    default on any error. *)
Definition safe_getattr {A} (a : Attr A) (default : A) : A :=
  match a with
  | Found v => v
  | Missing | Broken _ => default
  end.

(** ** The checker's state and the monad of its methods *)

(** Object identity of a descriptor: its position in the list of descriptors
    constructed so far. *)
Definition Ref := nat.

(** Calls recorded while the methods run; the log is bookkeeping of the
    embedding, the source has no counterpart. *)
Inductive Event :=
| BuilderCalled (k : TypeKey)
| ProviderCalled (k : TypeKey)
| Asked (left right : TypeObject) (answer : bool)
| AssertFailed.

Global Instance Event_eq_dec : EqDecision Event.
Proof. solve_decision. Defined.

(** The mutable fields of the dataclass [Checker] that the methods of this
    module read and write, followed by the store of constructed descriptors
    and the call log.  An assumption holds the two descriptors by value:
    the [in] test and the assertion compare them with [==]. *)
Record Checker := mkChecker {
  type_object_cache : gmap TypeKey Ref;
  assumed_compatibilities : list (TypeObject * TypeObject);
  objects : list TypeObject;
  events : list Event
}.

(** A freshly constructed checker: [default_factory=dict], [default_factory=list]. *)
Definition new_checker : Checker := mkChecker ∅ [] [] [].

Definition set_cache (f : gmap TypeKey Ref → gmap TypeKey Ref) (c : Checker) : Checker :=
  mkChecker (f (type_object_cache c)) (assumed_compatibilities c) (objects c) (events c).

Definition set_assumed
    (f : list (TypeObject * TypeObject) → list (TypeObject * TypeObject))
    (c : Checker) : Checker :=
  mkChecker (type_object_cache c) (f (assumed_compatibilities c)) (objects c) (events c).

Definition set_objects (f : list TypeObject → list TypeObject) (c : Checker) : Checker :=
  mkChecker (type_object_cache c) (assumed_compatibilities c) (f (objects c)) (events c).

Definition set_events (f : list Event → list Event) (c : Checker) : Checker :=
  mkChecker (type_object_cache c) (assumed_compatibilities c) (objects c) (f (events c)).

(** A method body: it runs on a checker, returns or raises, and leaves a
    checker behind (effects performed before a raise stay). *)
Definition M (A : Type) : Type := Checker → Result A * Checker.

Global Instance M_ret : MRet M := λ A a c, (Ok a, c).
Global Instance M_bind : MBind M := λ A B f m c,
  match m c with
  | (Ok a, c') => f a c'
  | (Raise e, c') => (Raise e, c')
  end.

Global Instance Result_ret : MRet Result := λ A a, Ok a.
Global Instance Result_bind : MBind Result := λ A B f r,
  match r with
  | Ok a => f a
  | Raise e => Raise e
  end.

(** A computation that does not touch the checker. *)
Definition lift {A} (r : Result A) : M A := λ c, (r, c).

(** [try: m except Exception: ...] seen from the handler's side: the outcome
    of [m] as a value. *)
Definition try {A} (m : M A) : M (Result A) := λ c,
  let '(r, c') := m c in (Ok r, c').

Definition log (e : Event) : M unit := λ c,
  (Ok (), set_events (λ l, l ++ [e]) c).

(** The constructor call [TypeObject(...)]: a new object. *)
Definition new_TypeObject (d : TypeObject) : M Ref := λ c,
  (Ok (length (objects c)), set_objects (λ l, l ++ [d]) c).

(** The descriptor a reference denotes. *)
Definition deref (c : Checker) (r : Ref) : option TypeObject := objects c !! r.

(** ** Virtual base providers *)

(** The loop of [get_additional_bases]: [bases |= provider(typ)]. *)
Fixpoint provider_loop (ps : list BaseProvider) (typ : TypeKey)
    (bases : gset TypeKey) : M (gset TypeKey) :=
  match ps with
  | [] => mret bases
  | provider :: rest =>
      _ ← log (ProviderCalled typ);
      more ← lift (provider typ);
      provider_loop rest typ (bases ∪ more)
  end.

Definition get_additional_bases (W : World) (typ : TypeKey) : M (gset TypeKey) :=
  provider_loop (providers W) typ ∅.

(** ** The descriptor builder *)

Local Open Scope string_scope.

Definition EXCLUDED_PROTOCOL_MEMBERS : gset string :=
  list_to_set [
    "__abstractmethods__"; "__annotations__"; "__dict__"; "__doc__";
    "__init__"; "__new__"; "__module__"; "__parameters__";
    "__subclasshook__"; "__weakref__"; "_abc_impl"; "_abc_cache";
    "_is_protocol"; "__next_in_mro__";
    "_abc_generic_negative_cache_version"; "__orig_bases__"; "__args__";
    "_abc_registry"; "__extra__"; "_abc_generic_negative_cache";
    "__origin__"; "__tree_hash__"; "_gorg"; "_is_runtime_protocol"
  ].

Local Close Scope string_scope.

Definition _extract_protocol_members (W : World) (typ : TypeKey) : Result (gset string) :=
  if bool_decide (typ = object)
     || is_typing_name W typ "Generic"
     || is_typing_name W typ "Protocol"
  then Ok ∅
  else
    dict ← getattr (attr_dict W typ);
    let members : gset string := list_to_set dict ∖ EXCLUDED_PROTOCOL_MEMBERS in
    probe ← (if version_ge_3_10 W then Ok true
             else hasattr (attr_annotations W typ));
    if (probe : bool) then
      annotations ← getattr (attr_annotations W typ);
      Ok (members ∪ list_to_set annotations)
    else Ok members.

(** [set(itertools.chain.from_iterable(_extract_protocol_members(base) for
    base in bases))]: the bases are visited in order, the first failing
    extraction ends the iteration. *)
Fixpoint extract_from_bases (W : World) (bases : list TypeKey) : Result (gset string) :=
  match bases with
  | [] => Ok ∅
  | base :: rest =>
      members ← _extract_protocol_members W base;
      others ← extract_from_bases W rest;
      Ok (members ∪ others)
  end.

Definition _get_typeshed_bases (W : World) (typ : TypeKey) : gset TypeKey :=
  list_to_set
    (omap (λ base, match base with
                   | TypedValue t => Some t
                   | OtherValue _ => None
                   end)
          (get_bases_recursively W typ)).

Definition _get_protocol_members (W : World) (bases : gset TypeKey) : gset string :=
  ⋃ (get_all_attributes W <$> elements bases).

Definition _build_type_object (W : World) (typ : TypeKey) : M Ref :=
  _ ← log (BuilderCalled typ);
  match typ with
  | KStr _ =>
      let bases := _get_typeshed_bases W typ in
      let is_protocol :=
        existsb (λ base, is_typing_name W base "Protocol") (elements bases) in
      let protocol_members :=
        if is_protocol then _get_protocol_members W bases else ∅ in
      new_TypeObject (mkTypeObject typ bases is_protocol protocol_members)
  | KSuper _ =>
      additional_bases ← get_additional_bases W typ;
      new_TypeObject (mkTypeObject typ additional_bases false ∅)
  | KType _ =>
      additional_bases ← get_additional_bases W typ;
      if ts_is_protocol W typ then
        let bases := _get_typeshed_bases W typ in
        new_TypeObject
          (mkTypeObject typ additional_bases true (_get_protocol_members W bases))
      else if is_instance_of_typing_name W typ "_ProtocolMeta"
              && safe_getattr (attr_is_protocol W typ) false then
        let bases := get_mro W typ in
        members ← lift (extract_from_bases W bases);
        new_TypeObject (mkTypeObject typ additional_bases true members)
      else
        new_TypeObject (mkTypeObject typ additional_bases false ∅)
  end.

(** ** The descriptor cache *)

(** [typ in self.type_object_cache] *)
Definition cache_contains (W : World) (typ : TypeKey) : M bool := λ c,
  match hash_error W typ with
  | Some e => (Raise e, c)
  | None =>
      (Ok (match type_object_cache c !! typ with Some _ => true | None => false end), c)
  end.

(** [self.type_object_cache[typ]] *)
Definition cache_getitem (W : World) (typ : TypeKey) : M Ref := λ c,
  match hash_error W typ with
  | Some e => (Raise e, c)
  | None =>
      match type_object_cache c !! typ with
      | Some r => (Ok r, c)
      | None => (Raise KeyError, c)
      end
  end.

(** [self.type_object_cache[typ] = type_object] *)
Definition cache_setitem (W : World) (typ : TypeKey) (r : Ref) : M unit := λ c,
  match hash_error W typ with
  | Some e => (Raise e, c)
  | None => (Ok (), set_cache (λ m, <[typ := r]> m) c)
  end.

Definition make_type_object (W : World) (typ : TypeKey) : M Ref :=
  in_cache ← try (cache_contains W typ);
  match in_cache with
  | Raise _ => _build_type_object W typ
  | Ok true => cache_getitem W typ
  | Ok false =>
      type_object ← _build_type_object W typ;
      _ ← cache_setitem W typ type_object;
      mret type_object
  end.

(** A run of the engine: the calls of [make_type_object] made one after the
    other on a checker, with the outcome of each. *)
Fixpoint resolve_all (W : World) (keys : list TypeKey) (c : Checker)
    : list (Result Ref) * Checker :=
  match keys with
  | [] => ([], c)
  | k :: rest =>
      let '(r, c') := make_type_object W k c in
      let '(rs, c'') := resolve_all W rest c' in
      (r :: rs, c'')
  end.

(** ** The assumption stack *)

Definition can_assume_compatibility (left right : TypeObject) : M bool := λ c,
  (Ok (bool_decide ((left, right) ∈ assumed_compatibilities c)), c).

(** [list.pop()]: the last element and the list without it; [None] stands for
    the [IndexError] of an empty list. *)
Definition list_pop {A} (l : list A) : option (A * list A) :=
  match last l with
  | Some x => Some (x, removelast l)
  | None => None
  end.

(** The context manager applied to the body of its [with] block: the body
    runs at the [yield], the [finally] clause runs whether the body returned
    or raised, and an exception of the [finally] clause replaces the body's
    outcome. *)
Definition assume_compatibility {A} (left right : TypeObject) (body : M A) : M A := λ c,
  let pair := (left, right) in
  let c1 := set_assumed (λ l, l ++ [pair]) c in
  let '(outcome, c2) := body c1 in
  match list_pop (assumed_compatibilities c2) with
  | None => (Raise IndexError, c2)
  | Some (new_pair, rest) =>
      let c3 := set_assumed (λ _, rest) c2 in
      if decide (pair = new_pair) then (outcome, c3)
      else (Raise AssertionError, set_events (λ l, l ++ [AssertFailed]) c3)
  end.

(** Callers of the stack: the work a compatibility check performs around
    and inside [with checker.assume_compatibility(left, right):] blocks. *)
Inductive Work :=
| Pass
| RaiseUser (n : nat)
| Then (first second : Work)
| With (left right : TypeObject) (body : Work)
| IfAssumed (left right : TypeObject) (assumed fresh : Work)
| Catch (body handler : Work)
| Mutate (f : list (TypeObject * TypeObject) → list (TypeObject * TypeObject)).

Fixpoint exec (w : Work) : M unit :=
  match w with
  | Pass => mret ()
  | RaiseUser n => lift (Raise (UserError n))
  | Then first second => _ ← exec first; exec second
  | With l r body => assume_compatibility l r (exec body)
  | IfAssumed l r assumed fresh =>
      answer ← can_assume_compatibility l r;
      _ ← log (Asked l r answer);
      if (answer : bool) then exec assumed else exec fresh
  | Catch body handler =>
      outcome ← try (exec body);
      match outcome with
      | Ok _ => mret ()
      | Raise _ => exec handler
      end
  | Mutate f => λ c, (Ok (), set_assumed f c)
  end.

(** Work that reaches the list only through the two methods. *)
Fixpoint disciplined (w : Work) : bool :=
  match w with
  | Pass | RaiseUser _ => true
  | Then a b | IfAssumed _ _ a b | Catch a b => disciplined a && disciplined b
  | With _ _ body => disciplined body
  | Mutate _ => false
  end.

(** Whether the work opens a scope for the pair somewhere. *)
Fixpoint assumes (p : TypeObject * TypeObject) (w : Work) : bool :=
  match w with
  | Pass | RaiseUser _ | Mutate _ => false
  | Then a b | IfAssumed _ _ a b | Catch a b => assumes p a || assumes p b
  | With l r body => bool_decide ((l, r) = p) || assumes p body
  end.

(** The events logged between two states of the checker. *)
Definition events_since (c c' : Checker) : list Event :=
  drop (length (events c)) (events c').


(** The test at the head of [_extract_protocol_members]: [object] and the
    two typing markers. *)
Definition is_marker (W : World) (base : TypeKey) : bool :=
  bool_decide (base = object)
  || is_typing_name W base "Generic"
  || is_typing_name W base "Protocol".

(** The two unguarded reads of [_extract_protocol_members] succeed on a
    class: [__dict__] can be read, and [__annotations__] can be read when it
    is read (it may be absent only where [hasattr] is asked first). *)
Definition reads_succeed (W : World) (base : TypeKey) : Prop :=
  (∃ names, attr_dict W base = Found names)
  ∧ match attr_annotations W base with
    | Found _ => True
    | Missing => version_ge_3_10 W = false
    | Broken _ => False
    end.

(** ** Sample worlds *)

Module Sample.
Local Open Scope string_scope.

Definition Protocol : TypeKey := KType 1.
Definition Generic : TypeKey := KType 2.
(** [class P(Protocol)], a protocol class of the running program. *)
Definition P : TypeKey := KType 10.

Definition typing_name (k : TypeKey) (name : string) : bool :=
  bool_decide (k = Protocol ∧ name = "Protocol")
  || bool_decide (k = Generic ∧ name = "Generic").

Definition instance_of_typing_name (k : TypeKey) (name : string) : bool :=
  bool_decide (k = P ∧ name = "_ProtocolMeta").

Definition mro (k : TypeKey) : list TypeKey :=
  if bool_decide (k = P) then [P; Protocol; Generic; object] else [k; object].

(** A world with no stubs and no providers, on an interpreter from 3.10
    on, in which [P] declares a method [meth] and annotates [__doc__]:
    [class P(Protocol): __doc__: str; def meth(self): ...]. *)
Definition runtime_world : World := {|
  providers := [];
  get_bases_recursively := λ _, [];
  ts_is_protocol := λ _, false;
  get_all_attributes := λ _, ∅;
  is_typing_name := typing_name;
  is_instance_of_typing_name := instance_of_typing_name;
  get_mro := mro;
  version_ge_3_10 := true;
  attr_dict := λ _, Found ["__module__"; "__annotations__"; "meth"; "_is_protocol"];
  attr_annotations := λ _, Found ["__doc__"];
  attr_is_protocol := λ k, if bool_decide (k = P) then Found true else Missing;
  hash_error := λ _, None
|}.

End Sample.

Module SampleLegacy.
Local Open Scope string_scope.

Definition A : TypeKey := KType 20.
Definition B : TypeKey := KType 21.
(** A class whose [_is_protocol] attribute cannot be read. *)
Definition Q : TypeKey := KType 11.

(** The provider of the docstring of [AdditionalBaseProviders]. *)
Definition provider : BaseProvider := λ typ,
  if bool_decide (typ = B) then Ok {[A]} else Ok ∅.

(** An interpreter before 3.10 where the classes carry no
    [__annotations__]; [P] is a protocol class declaring [meth]. *)
Definition legacy_world : World := {|
  providers := [provider];
  get_bases_recursively := λ _, [];
  ts_is_protocol := λ _, false;
  get_all_attributes := λ _, ∅;
  is_typing_name := Sample.typing_name;
  is_instance_of_typing_name := λ _ name, bool_decide (name = "_ProtocolMeta");
  get_mro := Sample.mro;
  version_ge_3_10 := false;
  attr_dict := λ _, Found ["__module__"; "meth"; "_is_protocol"];
  attr_annotations := λ _, Missing;
  attr_is_protocol := λ k, if bool_decide (k = Q) then Broken (UserError 0)
                           else Found true;
  hash_error := λ _, None
|}.
End SampleLegacy.

(** ** The states of a run *)

(** The checkers a run can reach from a fresh one through the public
    methods: resolving keys, asking for additional bases, and work on the
    assumption stack. *)
Inductive reachable (W : World) : Checker → Prop :=
| reachable_new : reachable W new_checker
| reachable_resolve c k :
    reachable W c → reachable W (snd (make_type_object W k c))
| reachable_bases c k :
    reachable W c → reachable W (snd (get_additional_bases W k c))
| reachable_work c w :
    reachable W c → reachable W (snd (exec w c)).

(** The cache and the store agree: a cached reference denotes a descriptor
    of its key, and a descriptor of a hashable key is the cached one. *)
Definition cache_inv (W : World) (c : Checker) : Prop :=
  (∀ k r, type_object_cache c !! k = Some r →
          ∃ d, deref c r = Some d ∧ typ d = k)
  ∧ (∀ r d, deref c r = Some d → hash_error W (typ d) = None →
            type_object_cache c !! typ d = Some r).

Module SampleCache.
(** A class whose metaclass defines [__eq__] without [__hash__]. *)
Definition U : TypeKey := KType 30.

Definition unhashable_world : World := {|
  providers := [];
  get_bases_recursively := λ _, [];
  ts_is_protocol := λ _, false;
  get_all_attributes := λ _, ∅;
  is_typing_name := Sample.typing_name;
  is_instance_of_typing_name := λ _ _, false;
  get_mro := Sample.mro;
  version_ge_3_10 := true;
  attr_dict := λ _, Found [];
  attr_annotations := λ _, Found [];
  attr_is_protocol := λ _, Missing;
  hash_error := λ k, if bool_decide (k = U) then Some TypeError else None
|}.

(** A configuration whose only provider raises. *)
Definition failing_provider : BaseProvider := λ _, Raise (UserError 1).

Definition failing_world : World := {|
  providers := [failing_provider];
  get_bases_recursively := λ _, [];
  ts_is_protocol := λ _, false;
  get_all_attributes := λ _, ∅;
  is_typing_name := Sample.typing_name;
  is_instance_of_typing_name := λ _ _, false;
  get_mro := Sample.mro;
  version_ge_3_10 := true;
  attr_dict := λ _, Found [];
  attr_annotations := λ _, Found [];
  attr_is_protocol := λ _, Missing;
  hash_error := λ _, None
|}.
End SampleCache.

Module SampleStack.
Local Open Scope string_scope.

(** Two descriptors: a class and a protocol with one member. *)
Definition dA : TypeObject := mkTypeObject (KType 20) ∅ false ∅.
Definition dB : TypeObject := mkTypeObject (KType 21) ∅ true {["foo"]}.

(** A check of [dA] against [dB] that asks for both directions, re-enters
    itself under the assumption and fails in a nested scope. *)
Definition nested : Work :=
  Then (IfAssumed dB dA Pass Pass)
       (Then (IfAssumed dA dB Pass (With dA dB (RaiseUser 7)))
             (Catch (With dB dB (RaiseUser 8)) Pass)).

(** A checker on which the pair [(dB, dA)] is already assumed. *)
Definition reversed_assumed : Checker := mkChecker ∅ [(dB, dA)] [] [].
End SampleStack.

Module SampleStubs.
Local Open Scope string_scope.

Definition X : TypeKey := KType 40.
Definition Y : TypeKey := KType 41.
Definition P1 : BaseProvider := λ _, Ok {[X]}.
Definition P2 : BaseProvider := λ _, Ok {[Y]}.

(** Stubs that mark the class [A] as a protocol declaring [foo], with two
    providers registered; at runtime [A] is an ordinary class. *)
Definition stub_world : World := {|
  providers := [P1; P2];
  get_bases_recursively := λ k,
    if bool_decide (k = SampleLegacy.A)
    then [TypedValue SampleLegacy.A; OtherValue 0] else [];
  ts_is_protocol := λ k, bool_decide (k = SampleLegacy.A);
  get_all_attributes := λ k,
    if bool_decide (k = SampleLegacy.A) then {["foo"]} else ∅;
  is_typing_name := Sample.typing_name;
  is_instance_of_typing_name := λ _ _, false;
  get_mro := Sample.mro;
  version_ge_3_10 := true;
  attr_dict := λ _, Found ["bar"];
  attr_annotations := λ _, Found [];
  attr_is_protocol := λ _, Missing;
  hash_error := λ _, None
|}.
End SampleStubs.

Module SampleBare.
(** An interpreter from 3.10 on in which the classes have lost their
    [__annotations__]. *)
Definition bare_world : World := {|
  providers := [];
  get_bases_recursively := λ _, [];
  ts_is_protocol := λ _, false;
  get_all_attributes := λ _, ∅;
  is_typing_name := Sample.typing_name;
  is_instance_of_typing_name := Sample.instance_of_typing_name;
  get_mro := Sample.mro;
  version_ge_3_10 := true;
  attr_dict := λ _, Found [];
  attr_annotations := λ _, Missing;
  attr_is_protocol := λ _, Missing;
  hash_error := λ _, None
|}.
End SampleBare.

(** * Properties *)

(** ** The monad *)

Ltac unfold_monad :=
  unfold mbind, mret, M_bind, M_ret, Result_bind, Result_ret, lift, try, log in *.

(** Decidable closed facts, by evaluation. *)
Ltac by_compute := apply (bool_decide_unpack _); vm_compute; exact I.

Lemma bind_Ok {A B} (m : M A) (f : A → M B) c a c' :
  m c = (Ok a, c') → (m ≫= f) c = f a c'.
Proof. intros H. unfold mbind, M_bind. by rewrite H. Qed.

Lemma bind_Raise {A B} (m : M A) (f : A → M B) c e c' :
  m c = (Raise e, c') → (m ≫= f) c = (Raise e, c').
Proof. intros H. unfold mbind, M_bind. by rewrite H. Qed.

Lemma events_since_app c c' evs :
  events c' = events c ++ evs → events_since c c' = evs.
Proof. intros H. unfold events_since. rewrite H. by rewrite drop_app_length. Qed.

(** ** Virtual base providers *)

Section additional_bases.
Variable typ : TypeKey.

(** The loop returns a set exactly when every provider does, and the set is
    the start value joined with what the providers returned; the cache,
    the stack and the store stay as they were. *)
Lemma provider_loop_Ok ps acc c s c' :
  provider_loop ps typ acc c = (Ok s, c') →
  (∀ p, p ∈ ps → is_Ok (p typ) = true)
  ∧ (∀ x, x ∈ s ↔ x ∈ acc ∨ ∃ p s', p ∈ ps ∧ p typ = Ok s' ∧ x ∈ s')
  ∧ c' = set_events (λ l, l ++ replicate (length ps) (ProviderCalled typ)) c.
Proof.
  revert acc c. induction ps as [|p ps IH]; intros acc c; simpl.
  - unfold mret, M_ret. intros [= <- <-]. split_and!.
    + intros p Hp. by apply elem_of_nil in Hp.
    + intros x. split; [by left|]. intros [?|(p & s' & Hp & _)]; [done|].
      by apply elem_of_nil in Hp.
    + destruct c. unfold set_events. simpl. by rewrite app_nil_r.
  - unfold_monad. destruct (p typ) as [more|e] eqn:Hp; [|done].
    intros Hloop. apply IH in Hloop as (Hall & Hs & ->). split_and!.
    + intros q [->|Hq]%elem_of_cons; [by rewrite Hp|by apply Hall].
    + intros x. rewrite Hs. split.
      * intros [[?|?]%elem_of_union|(q & s' & Hq & Hqs & Hx)].
        -- by left.
        -- right. exists p, more. split_and!; [left|done|done].
        -- right. exists q, s'. split_and!; [by right|done|done].
      * intros [?|(q & s' & [->|Hq]%elem_of_cons & Hqs & Hx)].
        -- left. apply elem_of_union. by left.
        -- left. rewrite Hp in Hqs. injection Hqs as <-.
           apply elem_of_union. by right.
        -- right. by exists q, s'.
    + destruct c. unfold set_events. simpl. f_equal.
      by rewrite <- app_assoc.
Qed.

(** Conversely the loop returns when every provider does. *)
Lemma provider_loop_returns ps acc c :
  (∀ p, p ∈ ps → is_Ok (p typ) = true) →
  ∃ s c', provider_loop ps typ acc c = (Ok s, c').
Proof.
  revert acc c. induction ps as [|p ps IH]; intros acc c Hall; simpl.
  - by eexists _, _.
  - unfold_monad. assert (Hp : is_Ok (p typ) = true) by (apply Hall; left).
    destruct (p typ) as [more|e]; [|done].
    apply IH. intros q Hq. apply Hall. by right.
Qed.

(** Whatever the outcome, the loop touches nothing but the call log. *)
Lemma provider_loop_state ps acc c :
  ∃ n, n ≤ length ps ∧
    snd (provider_loop ps typ acc c)
    = set_events (λ l, l ++ replicate n (ProviderCalled typ)) c.
Proof.
  revert acc c. induction ps as [|p ps IH]; intros acc c; simpl.
  - exists 0. split; [done|]. destruct c. unfold set_events. simpl.
    by rewrite app_nil_r.
  - unfold_monad. destruct (p typ) as [more|e].
    + destruct (IH (acc ∪ more)
        (set_events (λ l, l ++ [ProviderCalled typ]) c)) as (n & Hn & ->).
      exists (S n). split; [lia|]. destruct c. unfold set_events. simpl.
      by rewrite <- app_assoc.
    + exists 1. split; [lia|]. done.
Qed.
End additional_bases.

Lemma get_additional_bases_Ok W k c s c' :
  get_additional_bases W k c = (Ok s, c') →
  (∀ p, p ∈ providers W → is_Ok (p k) = true)
  ∧ (∀ x, x ∈ s ↔ ∃ p s', p ∈ providers W ∧ p k = Ok s' ∧ x ∈ s').
Proof.
  intros (Hall & Hs & _)%provider_loop_Ok. split; [done|].
  intros x. rewrite Hs. split; [|by right].
  intros [Hx|?]; [|done]. by apply not_elem_of_empty in Hx.
Qed.

Lemma get_additional_bases_same_providers W W' k c c' s :
  (∀ p, p ∈ providers W ↔ p ∈ providers W') →
  fst (get_additional_bases W k c) = Ok s →
  fst (get_additional_bases W' k c') = Ok s.
Proof.
  intros Hsame Hrun.
  destruct (get_additional_bases W k c) as [r c1] eqn:HW. simpl in Hrun. subst r.
  apply get_additional_bases_Ok in HW as [Hall Hs].
  destruct (provider_loop_returns k (providers W') ∅ c') as (s' & c2 & HW').
  { intros p Hp. apply Hall. by apply Hsame. }
  unfold get_additional_bases at 1. rewrite HW'. simpl. f_equal.
  apply get_additional_bases_Ok in HW' as [_ Hs'].
  apply set_eq. intros x. rewrite Hs, Hs'.
  split; intros (p & sp & Hp & Hpk & Hx); exists p, sp; split_and!; try done;
    by apply Hsame.
Qed.

Lemma provider_loop_union k ps sets acc c :
  Forall2 (λ (p : BaseProvider) s, p k = Ok s) ps sets →
  fst (provider_loop ps k acc c) = Ok (acc ∪ ⋃ sets).
Proof.
  intros H. revert acc c. induction H as [|p s ps sets Hp _ IH]; intros acc c; simpl.
  - f_equal. by rewrite (right_id_L ∅ (∪)).
  - unfold_monad. rewrite Hp. rewrite IH. f_equal. by rewrite (assoc_L (∪)).
Qed.

Lemma provider_loop_app k ps qs acc c :
  provider_loop (ps ++ qs) k acc c
  = (provider_loop ps k acc ≫= λ s, provider_loop qs k s) c.
Proof.
  revert acc c. induction ps as [|p ps IH]; intros acc c; simpl.
  - done.
  - unfold_monad. destruct (p k) as [more|e]; [|done]. apply IH.
Qed.

(** C9. [get_additional_bases] returns the union of what the registered
    providers return for the key: (1) when each provider returns a set, the
    result is the union of these sets; (2) with two providers returning
    {X} and {Y} the result is {X, Y}; (3) two registrations with the same
    providers, whatever their order and multiplicity, give the same set;
    (4) registering an already registered provider once more changes
    nothing in the outcome; (5) a permutation of the registration order
    gives the same set. *)
Theorem get_additional_bases_union (W : World) (k : TypeKey) (c : Checker) :
  (∀ sets, Forall2 (λ (p : BaseProvider) s, p k = Ok s) (providers W) sets →
     fst (get_additional_bases W k c) = Ok (⋃ sets))
  ∧ (∀ P1 P2 X Y, providers W = [P1; P2] → P1 k = Ok {[X]} → P2 k = Ok {[Y]} →
     fst (get_additional_bases W k c) = Ok {[X; Y]})
  ∧ (∀ W' s, (∀ p, p ∈ providers W ↔ p ∈ providers W') →
     fst (get_additional_bases W k c) = Ok s ↔
     fst (get_additional_bases W' k c) = Ok s)
  ∧ (∀ W' p, p ∈ providers W → providers W' = providers W ++ [p] →
     fst (get_additional_bases W' k c) = fst (get_additional_bases W k c))
  ∧ (∀ W' s, providers W ≡ₚ providers W' →
     fst (get_additional_bases W k c) = Ok s ↔
     fst (get_additional_bases W' k c) = Ok s).
Proof.
  assert (Hsets : ∀ sets,
    Forall2 (λ (p : BaseProvider) s, p k = Ok s) (providers W) sets →
    fst (get_additional_bases W k c) = Ok (⋃ sets)).
  { intros sets H. unfold get_additional_bases.
    rewrite (provider_loop_union k _ sets); [|done].
    f_equal. by rewrite (left_id_L ∅ (∪)). }
  assert (Hsame : ∀ W' s, (∀ p, p ∈ providers W ↔ p ∈ providers W') →
    fst (get_additional_bases W k c) = Ok s ↔
    fst (get_additional_bases W' k c) = Ok s).
  { intros W' s H. split; apply get_additional_bases_same_providers; [done|].
    intros p. by rewrite H. }
  split_and!; [done| |done| |].
  - intros P1 P2 X Y HW H1 H2.
    rewrite (Hsets [{[X]}; {[Y]}]).
    + simpl. f_equal. by rewrite (right_id_L ∅ (∪)).
    + rewrite HW. by repeat constructor.
  - intros W' p Hp HW'. unfold get_additional_bases. rewrite HW'.
    rewrite provider_loop_app.
    destruct (provider_loop (providers W) k ∅ c) as [[s|e] c1] eqn:Hrun.
    + erewrite bind_Ok by done. simpl. unfold_monad.
      apply provider_loop_Ok in Hrun as (Hall & Hs & _).
      specialize (Hall p Hp). destruct (p k) as [more|] eqn:Hpk; [|done].
      simpl. f_equal. apply set_eq. intros x. rewrite elem_of_union. split.
      * intros [?|Hx]; [done|]. apply Hs. right. by exists p, more.
      * by left.
    + by erewrite bind_Raise by done.
  - intros W' s Hperm. apply Hsame. intros p. by rewrite Hperm.
Qed.

(** ** The descriptor builder *)

Lemma get_additional_bases_state W k c :
  ∃ n, snd (get_additional_bases W k c)
       = set_events (λ l, l ++ replicate n (ProviderCalled k)) c.
Proof.
  destruct (provider_loop_state k (providers W) ∅ c) as (n & _ & H). by exists n.
Qed.

Lemma deref_new_TypeObject d c :
  deref (snd (new_TypeObject d c)) (length (objects c)) = Some d.
Proof. unfold deref, new_TypeObject. simpl. by apply list_lookup_middle. Qed.



(** The builder on a synthetic key: it always returns, and the descriptor is
    determined by the stub bases alone. *)
Lemma build_synthetic_eq W name c :
  let bases := _get_typeshed_bases W (KStr name) in
  let proto := existsb (λ base, is_typing_name W base "Protocol") (elements bases) in
  _build_type_object W (KStr name) c
  = (Ok (length (objects c)),
     set_objects
       (λ l, l ++ [mkTypeObject (KStr name) bases proto
                     (if proto then _get_protocol_members W bases else ∅)])
       (set_events (λ l, l ++ [BuilderCalled (KStr name)]) c)).
Proof. done. Qed.





(** ** Member extraction from runtime classes *)

(** [object], [Generic] and [Protocol] contribute no members. *)
Lemma extract_marker_empty W base :
  is_marker W base = true → _extract_protocol_members W base = Ok ∅.
Proof. unfold is_marker, _extract_protocol_members. by intros ->. Qed.

(** The extraction of any other class, by cases on the reads. *)
Lemma extract_class_eq W base :
  is_marker W base = false →
  _extract_protocol_members W base
  = (dict ← getattr (attr_dict W base);
     probe ← (if version_ge_3_10 W then Ok true
              else hasattr (attr_annotations W base));
     if (probe : bool) then
       annotations ← getattr (attr_annotations W base);
       Ok (list_to_set dict ∖ EXCLUDED_PROTOCOL_MEMBERS ∪ list_to_set annotations)
     else Ok (list_to_set dict ∖ EXCLUDED_PROTOCOL_MEMBERS)).
Proof. unfold is_marker, _extract_protocol_members. by intros ->. Qed.

(** An excluded name among the extracted members was not taken from
    [__dict__]: it is an annotated name. *)
Lemma extract_excluded_from_annotations W base s x :
  _extract_protocol_members W base = Ok s →
  x ∈ s → x ∈ EXCLUDED_PROTOCOL_MEMBERS →
  ∃ annotations, attr_annotations W base = Found annotations ∧ x ∈ annotations.
Proof.
  destruct (is_marker W base) eqn:Hm.
  - rewrite extract_marker_empty by done. intros [= <-] Hx.
    by apply not_elem_of_empty in Hx.
  - rewrite extract_class_eq by done. unfold_monad.
    destruct (attr_dict W base) as [dict| |e]; simpl; try done.
    destruct (version_ge_3_10 W), (attr_annotations W base) as [ann| |e];
      simpl; try done; intros [= <-] Hx Hex.
    all: try (apply elem_of_difference in Hx as [_ Hx]; done).
    all: apply elem_of_union in Hx as [Hx|Hx];
      [by apply elem_of_difference in Hx as [_ Hx]|].
    all: exists ann; split; [done|]; by apply elem_of_list_to_set in Hx.
Qed.

(** A linearization made of [object] and the typing markers only gives no
    members. *)
Lemma extract_from_markers_empty W bases :
  (∀ base, base ∈ bases → is_marker W base = true) →
  extract_from_bases W bases = Ok ∅.
Proof.
  induction bases as [|base bases IH]; intros H; simpl; [done|].
  rewrite extract_marker_empty by (apply H; left).
  rewrite IH by (intros b Hb; apply H; by right).
  unfold_monad. by rewrite (left_id_L ∅ (∪)).
Qed.

Lemma extract_returns W base :
  (is_marker W base = false → reads_succeed W base) →
  ∃ s, _extract_protocol_members W base = Ok s.
Proof.
  intros H. destruct (is_marker W base) eqn:Hm.
  - rewrite extract_marker_empty by done. by eexists.
  - rewrite extract_class_eq by done. destruct (H eq_refl) as [[dict Hd] Ha].
    rewrite Hd. unfold_monad. simpl.
    destruct (version_ge_3_10 W), (attr_annotations W base) as [ann| |e];
      simpl; try done; by eexists.
Qed.

Lemma extract_from_bases_returns W bases :
  (∀ base, base ∈ bases → is_marker W base = false → reads_succeed W base) →
  ∃ s, extract_from_bases W bases = Ok s.
Proof.
  induction bases as [|base bases IH]; intros H; simpl; [by eexists|].
  destruct (extract_returns W base) as [s ->]; [apply H; by left|].
  destruct IH as [s' ->]; [intros b Hb; apply H; by right|].
  by eexists.
Qed.

(** C5. A protocol class of the running program that annotates a name of
    the exclusion set: the name is in [EXCLUDED_PROTOCOL_MEMBERS], and it
    is one of the protocol members of the descriptor that
    [make_type_object] returns. *)
Theorem annotated_excluded_name_is_member :
  "__doc__"%string ∈ EXCLUDED_PROTOCOL_MEMBERS
  ∧ get_mro Sample.runtime_world Sample.P
    = [Sample.P; Sample.Protocol; Sample.Generic; object]
  ∧ ∃ d c,
      make_type_object Sample.runtime_world Sample.P new_checker = (Ok 0, c)
      ∧ deref c 0 = Some d
      ∧ is_protocol d = true
      ∧ protocol_members d = {[ "meth"%string; "__doc__"%string ]}.
Proof.
  split; [by_compute|]. split; [done|].
  eexists _, _. split_and!.
  - vm_compute. reflexivity.
  - reflexivity.
  - reflexivity.
  - by_compute.
Qed.

(** ** What the builder leaves behind *)

(** The builder never touches the cache or the stack; it logs its call, and
    it adds exactly one descriptor, for the key it was given, when it
    returns, and none when it raises. *)
Lemma build_state W k c :
  let '(r, c') := _build_type_object W k c in
  type_object_cache c' = type_object_cache c
  ∧ assumed_compatibilities c' = assumed_compatibilities c
  ∧ (∃ evs, events c' = events c ++ BuilderCalled k :: evs)
  ∧ match r with
    | Ok ref => ref = length (objects c)
                ∧ ∃ d, objects c' = objects c ++ [d] ∧ typ d = k
    | Raise _ => objects c' = objects c
    end.
Proof.
  assert (Hnew : ∀ d n c0,
    c0 = set_events (λ l, l ++ replicate n (ProviderCalled k))
           (set_events (λ l, l ++ [BuilderCalled k]) c) →
    typ d = k →
    let '(r, c') := new_TypeObject d c0 in
    type_object_cache c' = type_object_cache c
    ∧ assumed_compatibilities c' = assumed_compatibilities c
    ∧ (∃ evs, events c' = events c ++ BuilderCalled k :: evs)
    ∧ match r with
      | Ok ref => ref = length (objects c)
                  ∧ ∃ d, objects c' = objects c ++ [d] ∧ typ d = k
      | Raise _ => objects c' = objects c
      end).
  { intros d n c0 -> Hd. simpl. split_and!; try done.
    - eexists. by rewrite <- app_assoc.
    - by exists d. }
  destruct k as [t|t|name]; [| |rewrite build_synthetic_eq];
    [unfold _build_type_object; unfold mbind at 1; unfold M_bind at 1;
     unfold log at 1 ..|].
  - destruct (get_additional_bases_state W (KType t)
      (set_events (λ l, l ++ [BuilderCalled (KType t)]) c)) as [n Hst].
    unfold mbind, M_bind.
    destruct (get_additional_bases W (KType t) _) as [[ab|e] c1];
      simpl in Hst; subst c1.
    + destruct (ts_is_protocol W (KType t)); [by eapply Hnew|].
      destruct (_ && _); [|by eapply Hnew].
      unfold lift. destruct (extract_from_bases W _) as [members|e].
      * by eapply Hnew.
      * simpl. split_and!; try done. eexists. by rewrite <- app_assoc.
    + simpl. split_and!; try done. eexists. by rewrite <- app_assoc.
  - destruct (get_additional_bases_state W (KSuper t)
      (set_events (λ l, l ++ [BuilderCalled (KSuper t)]) c)) as [n Hst].
    unfold mbind, M_bind.
    destruct (get_additional_bases W (KSuper t) _) as [[ab|e] c1];
      simpl in Hst; subst c1.
    + by eapply Hnew.
    + simpl. split_and!; try done. eexists. by rewrite <- app_assoc.
  - simpl. split_and!; try done.
    + by eexists.
    + by eexists.
Qed.

(** ** Failing attribute reads *)




(** ** The descriptor cache *)

(** The three paths of [make_type_object]. *)
Lemma make_type_object_unhashable W k c e :
  hash_error W k = Some e →
  make_type_object W k c = _build_type_object W k c.
Proof.
  intros Hh. unfold make_type_object, cache_contains. unfold_monad.
  by rewrite Hh.
Qed.

Lemma make_type_object_hit W k c r :
  hash_error W k = None → type_object_cache c !! k = Some r →
  make_type_object W k c = (Ok r, c).
Proof.
  intros Hh Hc. unfold make_type_object, cache_contains, cache_getitem.
  unfold_monad. rewrite Hh, Hc. simpl. by rewrite ?Hh, ?Hc.
Qed.

Lemma make_type_object_miss W k c :
  hash_error W k = None → type_object_cache c !! k = None →
  make_type_object W k c
  = match _build_type_object W k c with
    | (Ok r, c') => (Ok r, set_cache (λ m, <[k := r]> m) c')
    | (Raise e, c') => (Raise e, c')
    end.
Proof.
  intros Hh Hc. unfold make_type_object, cache_contains, cache_setitem.
  unfold_monad. rewrite Hh, Hc. simpl.
  by destruct (_build_type_object W k c) as [[r|e] c'].
Qed.

(** An entry of the cache is never replaced or removed. *)
Lemma make_type_object_keeps W k' c k r :
  type_object_cache c !! k = Some r →
  type_object_cache (snd (make_type_object W k' c)) !! k = Some r.
Proof.
  intros Hk. pose proof (build_state W k' c) as Hb.
  destruct (hash_error W k') as [e|] eqn:Hh.
  - rewrite (make_type_object_unhashable W k' c e) by done.
    destruct (_build_type_object W k' c) as [r' c']. simpl.
    destruct Hb as (-> & _). done.
  - destruct (type_object_cache c !! k') as [r'|] eqn:Hk'.
    + by rewrite (make_type_object_hit W k' c r').
    + rewrite make_type_object_miss by done.
      destruct (_build_type_object W k' c) as [[r'|e] c'];
        destruct Hb as (Hcache & _); simpl.
      * rewrite Hcache. rewrite lookup_insert_ne; [done|]. congruence.
      * by rewrite Hcache.
Qed.

Lemma resolve_all_keeps W keys c k r :
  type_object_cache c !! k = Some r →
  type_object_cache (snd (resolve_all W keys c)) !! k = Some r.
Proof.
  revert c. induction keys as [|k' keys IH]; intros c Hk; simpl; [done|].
  pose proof (make_type_object_keeps W k' c k r Hk) as Hstep.
  destruct (make_type_object W k' c) as [r' c']. simpl in Hstep.
  specialize (IH c' Hstep). destruct (resolve_all W keys c'). done.
Qed.

(** A call that returns leaves the key in the cache when it can be hashed. *)
Lemma make_type_object_caches W k c r c' :
  hash_error W k = None →
  make_type_object W k c = (Ok r, c') →
  type_object_cache c' !! k = Some r.
Proof.
  intros Hh. destruct (type_object_cache c !! k) as [r'|] eqn:Hk.
  - rewrite (make_type_object_hit W k c r') by done. by intros [= <- <-].
  - rewrite make_type_object_miss by done.
    destruct (_build_type_object W k c) as [[r'|e] c1]; [|done].
    intros [= <- <-]. simpl. by rewrite lookup_insert_eq.
Qed.

(** Work on the assumption stack leaves the cache and the store alone. *)
Lemma exec_frame w c :
  type_object_cache (snd (exec w c)) = type_object_cache c
  ∧ objects (snd (exec w c)) = objects c.
Proof.
  revert c. induction w as [|n|w1 IH1 w2 IH2|l r body IH|l r wt IHt wf IHf
                            |body IHb handler IHh|f]; intros c; simpl.
  - done.
  - done.
  - unfold mbind, M_bind. specialize (IH1 c).
    destruct (exec w1 c) as [[[]|e] c1]; simpl in IH1; [|done].
    destruct (IH2 c1) as [-> ->]. done.
  - unfold assume_compatibility.
    specialize (IH (set_assumed (λ l0, l0 ++ [(l, r)]) c)).
    destruct (exec body _) as [o c2]. simpl in IH.
    destruct (list_pop (assumed_compatibilities c2)) as [[new_pair rest]|];
      [|done].
    by destruct (decide ((l, r) = new_pair)).
  - unfold mbind, M_bind, can_assume_compatibility, log. simpl.
    destruct (bool_decide _).
    + by destruct (IHt (set_events (λ l0, l0 ++ [Asked l r true]) c)) as [-> ->].
    + by destruct (IHf (set_events (λ l0, l0 ++ [Asked l r false]) c)) as [-> ->].
  - unfold mbind, M_bind, try. specialize (IHb c).
    destruct (exec body c) as [[[]|e] c1]; simpl in IHb; [done|].
    destruct (IHh c1) as [-> ->]. done.
  - done.
Qed.

Lemma cache_inv_frame W c c' :
  type_object_cache c' = type_object_cache c → objects c' = objects c →
  cache_inv W c → cache_inv W c'.
Proof.
  intros Hc Ho [H1 H2]. unfold cache_inv, deref. rewrite Hc, Ho. by split.
Qed.

(** Resolving a key keeps the cache and the store in agreement. *)
Lemma cache_inv_resolve W k c :
  cache_inv W c → cache_inv W (snd (make_type_object W k c)).
Proof.
  intros [H1 H2]. pose proof (build_state W k c) as Hb.
  assert (Hgrow : ∀ c' d, objects c' = objects c ++ [d] →
    ∀ r d', deref c r = Some d' → deref c' r = Some d').
  { intros c' d Ho r d' Hr. unfold deref in *. rewrite Ho.
    by apply lookup_app_l_Some. }
  assert (Hsplit : ∀ c' d, objects c' = objects c ++ [d] →
    ∀ r d', deref c' r = Some d' →
    deref c r = Some d' ∨ (r = length (objects c) ∧ d' = d)).
  { intros c' d Ho r d'. unfold deref. rewrite Ho. intros Hr.
    apply lookup_app_Some in Hr as [Hr|[Hlen Hr]]; [by left|right].
    destruct (r - length (objects c)) as [|n] eqn:Hn; simpl in Hr; [|done].
    split; [lia|congruence]. }
  destruct (hash_error W k) as [e|] eqn:Hh.
  - rewrite (make_type_object_unhashable W k c e) by done.
    destruct (_build_type_object W k c) as [[r|e'] c'];
      destruct Hb as (Hc & _ & _ & Hb); simpl.
    + destruct Hb as (-> & d & Ho & Hd). split.
      * intros k' r'. rewrite Hc. intros (d' & Hr' & Hk')%H1.
        exists d'. split; [by eapply Hgrow|done].
      * intros r' d' Hr' Hh'. rewrite Hc.
        destruct (Hsplit c' d Ho r' d' Hr') as [Hold|[-> ->]]; [by apply H2|].
        congruence.
    + by apply (cache_inv_frame W c c').
  - destruct (type_object_cache c !! k) as [r|] eqn:Hk.
    + by rewrite (make_type_object_hit W k c r).
    + rewrite make_type_object_miss by done.
      destruct (_build_type_object W k c) as [[r|e'] c'];
        destruct Hb as (Hc & _ & _ & Hb); simpl.
      * destruct Hb as (-> & d & Ho & Hd). split.
        -- intros k' r'. simpl. rewrite Hc.
           destruct (decide (k = k')) as [<-|Hne].
           ++ rewrite lookup_insert_eq. intros [= <-]. exists d.
              split; [|done]. unfold deref. simpl. rewrite Ho.
              by apply list_lookup_middle.
           ++ rewrite lookup_insert_ne by done.
              intros (d' & Hr' & Hk')%H1. exists d'.
              split; [|done]. by apply (Hgrow c' d).
        -- intros r' d' Hr' Hh'. simpl. rewrite Hc.
           destruct (Hsplit c' d Ho r' d' Hr') as [Hold|[-> ->]].
           ++ specialize (H2 r' d' Hold Hh').
              rewrite lookup_insert_ne; [done|]. congruence.
           ++ rewrite Hd. by rewrite lookup_insert_eq.
      * by apply (cache_inv_frame W c c').
Qed.

Lemma cache_inv_reachable W c : reachable W c → cache_inv W c.
Proof.
  induction 1 as [|c k _ IH|c k _ IH|c w _ IH].
  - split.
    + intros k r Hk. simpl in Hk. by rewrite lookup_empty in Hk.
    + intros r d Hr. unfold deref in Hr. simpl in Hr.
      by rewrite lookup_nil in Hr.
  - by apply cache_inv_resolve.
  - destruct (get_additional_bases_state W k c) as [n ->].
    by apply (cache_inv_frame W c).
  - destruct (exec_frame w c) as [Hc Ho]. by apply (cache_inv_frame W c).
Qed.

(** C1, as stated, fails: a key whose membership test raises is built anew
    by every call, so two calls return two different objects, the builder
    runs twice and two descriptors of the key exist. *)
Lemma unhashable_key_built_twice :
  hash_error SampleCache.unhashable_world SampleCache.U = Some TypeError
  ∧ fst (resolve_all SampleCache.unhashable_world
           [SampleCache.U; SampleCache.U] new_checker)
    = [Ok 0; Ok 1]
  ∧ typ <$> objects (snd (resolve_all SampleCache.unhashable_world
                            [SampleCache.U; SampleCache.U] new_checker))
    = [SampleCache.U; SampleCache.U]
  ∧ events (snd (resolve_all SampleCache.unhashable_world
                   [SampleCache.U; SampleCache.U] new_checker))
    = [BuilderCalled SampleCache.U; BuilderCalled SampleCache.U].
Proof. by vm_compute. Qed.

(** C1, amended. For a key whose membership test does not raise, in any
    state a run can reach: (1) at most one descriptor of the key exists;
    (2) once a call for the key has returned a descriptor, every later call
    for it, whatever was resolved in between, returns the same object and
    leaves the checker as it found it, so the builder is not invoked again
    and no descriptor is added. *)
Theorem cache_identity (W : World) (c : Checker) (k : TypeKey) :
  reachable W c → hash_error W k = None →
  (∀ r1 r2 d1 d2, deref c r1 = Some d1 → deref c r2 = Some d2 →
     typ d1 = k → typ d2 = k → r1 = r2)
  ∧ (∀ r c1, make_type_object W k c = (Ok r, c1) →
     ∀ keys, let c2 := snd (resolve_all W keys c1) in
             make_type_object W k c2 = (Ok r, c2)).
Proof.
  intros Hreach Hh. split.
  - destruct (cache_inv_reachable W c Hreach) as [_ H2].
    intros r1 r2 d1 d2 Hr1 Hr2 Hd1 Hd2.
    pose proof (H2 r1 d1 Hr1) as Hc1. pose proof (H2 r2 d2 Hr2) as Hc2.
    rewrite Hd1 in Hc1. rewrite Hd2 in Hc2.
    specialize (Hc1 Hh). specialize (Hc2 Hh). congruence.
  - intros r c1 Hcall keys c2. apply make_type_object_hit; [done|].
    apply resolve_all_keeps. by eapply make_type_object_caches.
Qed.

Lemma cache_identity_witness :
  make_type_object Sample.runtime_world Sample.P
    (snd (resolve_all Sample.runtime_world [KStr "Q"; Sample.P]
            (snd (make_type_object Sample.runtime_world Sample.P new_checker))))
  = (Ok 0,
     snd (resolve_all Sample.runtime_world [KStr "Q"; Sample.P]
            (snd (make_type_object Sample.runtime_world Sample.P new_checker)))).
Proof.
  refine (proj2 (cache_identity Sample.runtime_world new_checker Sample.P
                   (reachable_new _) eq_refl) 0 _ _ [KStr "Q"; Sample.P]).
  vm_compute. reflexivity.
Defined.

(** C6. When the membership test of the key raises, [make_type_object] does
    exactly what the builder does on that key: the exception of the test
    goes no further, the cache is left as it was, and a descriptor that the
    call returns is a new object describing the key. *)
Theorem make_type_object_unhashable_fallback
    (W : World) (k : TypeKey) (c : Checker) (e : Exn) :
  hash_error W k = Some e →
  make_type_object W k c = _build_type_object W k c
  ∧ type_object_cache (snd (make_type_object W k c)) = type_object_cache c
  ∧ (∀ r c', make_type_object W k c = (Ok r, c') →
       deref c r = None ∧ ∃ d, deref c' r = Some d ∧ typ d = k).
Proof.
  intros Hh. rewrite (make_type_object_unhashable W k c e) by done.
  pose proof (build_state W k c) as Hb.
  destruct (_build_type_object W k c) as [[r|e'] c1];
    destruct Hb as (Hc & _ & _ & Hb); simpl; split_and!; try done.
  intros r' c' [= <- <-]. destruct Hb as (-> & d & Ho & Hd). split.
  - unfold deref. by apply lookup_ge_None_2.
  - exists d. split; [|done]. unfold deref. rewrite Ho.
    by apply list_lookup_middle.
Qed.

Lemma make_type_object_unhashable_fallback_witness :
  ∃ d, deref (snd (make_type_object SampleCache.unhashable_world
                     SampleCache.U new_checker)) 0 = Some d
       ∧ typ d = SampleCache.U.
Proof.
  refine (proj2 (proj2 (proj2 (make_type_object_unhashable_fallback
    SampleCache.unhashable_world SampleCache.U new_checker TypeError
    eq_refl)) 0 _ _)).
  vm_compute. reflexivity.
Defined.

(** Resolving other keys does not make a key appear in the cache. *)
Lemma make_type_object_other W k' c k :
  k' ≠ k → type_object_cache c !! k = None →
  type_object_cache (snd (make_type_object W k' c)) !! k = None.
Proof.
  intros Hne Hk. pose proof (build_state W k' c) as Hb.
  destruct (hash_error W k') as [e|] eqn:Hh.
  - rewrite (make_type_object_unhashable W k' c e) by done.
    destruct (_build_type_object W k' c) as [r' c']. simpl.
    destruct Hb as (-> & _). done.
  - destruct (type_object_cache c !! k') as [r'|] eqn:Hk'.
    + by rewrite (make_type_object_hit W k' c r').
    + rewrite make_type_object_miss by done.
      destruct (_build_type_object W k' c) as [[r'|e] c'];
        destruct Hb as (Hcache & _); simpl.
      * rewrite Hcache. by rewrite lookup_insert_ne.
      * by rewrite Hcache.
Qed.

Lemma resolve_all_other W keys c k :
  k ∉ keys → type_object_cache c !! k = None →
  type_object_cache (snd (resolve_all W keys c)) !! k = None.
Proof.
  revert c. induction keys as [|k' keys IH]; intros c Hnotin Hk; simpl; [done|].
  apply not_elem_of_cons in Hnotin as [Hne Hnotin].
  pose proof (make_type_object_other W k' c k (not_eq_sym Hne) Hk) as Hstep.
  destruct (make_type_object W k' c) as [r' c']. simpl in Hstep.
  specialize (IH c' Hnotin Hstep). by destruct (resolve_all W keys c').
Qed.

(** A call for a hashable key that is not cached runs the builder. *)
Lemma make_type_object_miss_builds W k c :
  hash_error W k = None → type_object_cache c !! k = None →
  BuilderCalled k ∈ events_since c (snd (make_type_object W k c)).
Proof.
  intros Hh Hk. rewrite make_type_object_miss by done.
  pose proof (build_state W k c) as Hb.
  destruct (_build_type_object W k c) as [[r|e] c'];
    destruct Hb as (_ & _ & [evs Hev] & _); simpl.
  - rewrite (events_since_app c _ (BuilderCalled k :: evs)) by done. left.
  - rewrite (events_since_app c _ (BuilderCalled k :: evs)) by done. left.
Qed.

(** C10. When the builder raises on a hashable key that is not cached,
    [make_type_object] raises the same exception, the cache is what it was
    before the call, and, whatever other keys are resolved afterwards, the
    key is still absent and the next call for it runs the builder again. *)
Theorem build_failure_not_cached
    (W : World) (k : TypeKey) (c c' : Checker) (e : Exn) :
  hash_error W k = None → type_object_cache c !! k = None →
  _build_type_object W k c = (Raise e, c') →
  make_type_object W k c = (Raise e, c')
  ∧ type_object_cache c' = type_object_cache c
  ∧ (∀ keys, k ∉ keys →
       let c2 := snd (resolve_all W keys c') in
       type_object_cache c2 !! k = None
       ∧ BuilderCalled k ∈ events_since c2 (snd (make_type_object W k c2))).
Proof.
  intros Hh Hk Hbuild. pose proof (build_state W k c) as Hb.
  rewrite Hbuild in Hb. destruct Hb as (Hc & _).
  split_and!.
  - rewrite make_type_object_miss by done. by rewrite Hbuild.
  - done.
  - intros keys Hnotin c2.
    assert (type_object_cache c2 !! k = None) as Hk2.
    { apply resolve_all_other; [done|]. by rewrite Hc. }
    split; [done|]. by apply make_type_object_miss_builds.
Qed.

Lemma build_failure_not_cached_witness :
  make_type_object SampleCache.failing_world Sample.P new_checker
  = (Raise (UserError 1),
     snd (_build_type_object SampleCache.failing_world Sample.P new_checker)).
Proof.
  refine (proj1 (build_failure_not_cached SampleCache.failing_world Sample.P
                   new_checker _ (UserError 1) eq_refl _ _)).
  - apply lookup_empty.
  - vm_compute. reflexivity.
Defined.

(** ** The assumption stack *)

Lemma list_pop_snoc {A} (l : list A) (x : A) : list_pop (l ++ [x]) = Some (x, l).
Proof. unfold list_pop. by rewrite last_snoc, removelast_last. Qed.

Lemma list_pop_last {A} (l : list A) x rest :
  list_pop l = Some (x, rest) → last l = Some x.
Proof. unfold list_pop. destruct (last l); [|done]. by intros [= -> _]. Qed.

Lemma set_events_app evs1 evs2 c :
  set_events (λ l, l ++ evs2) (set_events (λ l, l ++ evs1) c)
  = set_events (λ l, l ++ (evs1 ++ evs2)) c.
Proof. destruct c. unfold set_events. simpl. by rewrite <- app_assoc. Qed.

Lemma set_events_nil c : set_events (λ l, l ++ []) c = c.
Proof. destruct c. unfold set_events. simpl. by rewrite app_nil_r. Qed.

Ltac no_events :=
  first [ done
        | by intros ?%elem_of_nil
        | by intros ? ? ? ?%elem_of_nil ].

(** Disciplined work leaves the checker as it found it but for the log; no
    assertion of a scope fails; a question about a pair on the stack is
    answered yes, and a question about a pair that is neither on the stack
    nor assumed by the work is answered no. *)
Lemma exec_disciplined w :
  disciplined w = true →
  ∀ c, ∃ o evs,
    exec w c = (o, set_events (λ l, l ++ evs) c)
    ∧ o ≠ Raise AssertionError ∧ o ≠ Raise IndexError
    ∧ (AssertFailed ∉ evs)
    ∧ (∀ l r b, Asked l r b ∈ evs →
         (l, r) ∈ assumed_compatibilities c → b = true)
    ∧ (∀ l r b, Asked l r b ∈ evs →
         (l, r) ∉ assumed_compatibilities c → assumes (l, r) w = false →
         b = false).
Proof.
  induction w as [|n|w1 IH1 w2 IH2|l r body IH|l r wt IHt wf IHf
                  |body IHb handler IHh|f]; simpl; intros Hd c.
  - exists (Ok ()), []. rewrite set_events_nil. split_and!; no_events.
  - exists (Raise (UserError n)), []. rewrite set_events_nil.
    split_and!; no_events.
  - apply andb_prop in Hd as [Hd1 Hd2].
    destruct (IH1 Hd1 c) as (o1 & evs1 & He1 & Ha1 & Hi1 & Hf1 & Ht1 & Hn1).
    unfold mbind, M_bind. rewrite He1. destruct o1 as [[]|e1].
    + destruct (IH2 Hd2 (set_events (λ l, l ++ evs1) c))
        as (o2 & evs2 & He2 & Ha2 & Hi2 & Hf2 & Ht2 & Hn2).
      exists o2, (evs1 ++ evs2). rewrite He2, set_events_app.
      split_and!; try done.
      * by intros [?|?]%elem_of_app.
      * intros l r b [?|?]%elem_of_app ?; [by eapply Ht1|by eapply Ht2].
      * intros l r b [?|?]%elem_of_app ? [? ?]%orb_false_elim;
          [by eapply Hn1|by eapply Hn2].
    + exists (Raise e1), evs1. split_and!; try done.
      intros l r b ? ? [? ?]%orb_false_elim. by eapply Hn1.
  - destruct (IH Hd (set_assumed (λ s, s ++ [(l, r)]) c))
      as (o & evs & He & Ha & Hi & Hf & Ht & Hn).
    exists o, evs. unfold assume_compatibility. rewrite He. simpl.
    rewrite list_pop_snoc. rewrite decide_True by done.
    split_and!; try done.
    + intros l' r' b Hin Hs. eapply Ht; [done|]. simpl.
      apply elem_of_app. by left.
    + intros l' r' b Hin Hs [Hne Hb]%orb_false_elim. eapply Hn; [done| |done].
      simpl. intros [?|Heq%list_elem_of_singleton]%elem_of_app; [done|].
      apply bool_decide_eq_false in Hne. congruence.
  - apply andb_prop in Hd as [Hdt Hdf].
    unfold mbind, M_bind, can_assume_compatibility, log. simpl.
    destruct (bool_decide ((l, r) ∈ assumed_compatibilities c)) eqn:Hq.
    + destruct (IHt Hdt (set_events (λ s, s ++ [Asked l r true]) c))
        as (o & evs & He & Ha & Hi & Hf & Ht & Hn).
      exists o, (Asked l r true :: evs). rewrite He.
      rewrite (set_events_app [Asked l r true] evs c).
      split_and!; try done.
      * by intros [?|?]%elem_of_cons.
      * intros l' r' b [[= -> -> ->]|?]%elem_of_cons ?; [done|by eapply Ht].
      * intros l' r' b [[= -> -> ->]|?]%elem_of_cons Hs [? ?]%orb_false_elim.
        -- by apply bool_decide_eq_true in Hq.
        -- by eapply Hn.
    + destruct (IHf Hdf (set_events (λ s, s ++ [Asked l r false]) c))
        as (o & evs & He & Ha & Hi & Hf & Ht & Hn).
      exists o, (Asked l r false :: evs). rewrite He.
      rewrite (set_events_app [Asked l r false] evs c).
      split_and!; try done.
      * by intros [?|?]%elem_of_cons.
      * intros l' r' b [[= -> -> ->]|?]%elem_of_cons Hs; [|by eapply Ht].
        by apply bool_decide_eq_false in Hq.
      * intros l' r' b [[= -> -> ->]|?]%elem_of_cons Hs [? ?]%orb_false_elim;
          [done|by eapply Hn].
  - apply andb_prop in Hd as [Hdb Hdh].
    destruct (IHb Hdb c) as (o1 & evs1 & He1 & Ha1 & Hi1 & Hf1 & Ht1 & Hn1).
    unfold mbind, M_bind, try. rewrite He1. destruct o1 as [[]|e1].
    + exists (Ok ()), evs1. split_and!; try done.
      intros l r b ? ? [? ?]%orb_false_elim. by eapply Hn1.
    + destruct (IHh Hdh (set_events (λ l, l ++ evs1) c))
        as (o2 & evs2 & He2 & Ha2 & Hi2 & Hf2 & Ht2 & Hn2).
      exists o2, (evs1 ++ evs2). rewrite He2, set_events_app.
      split_and!; try done.
      * by intros [?|?]%elem_of_app.
      * intros l r b [?|?]%elem_of_app ?; [by eapply Ht1|by eapply Ht2].
      * intros l r b [?|?]%elem_of_app ? [? ?]%orb_false_elim;
          [by eapply Hn1|by eapply Hn2].
  - done.
Qed.

(** C4. (1) After any work made of properly nested scopes, whether it
    returns or raises, the stack is the stack before the work, so its
    length is the same, and no assertion of a scope fails on the way.
    (2) A scope whose body leaves the stack as it found it pops its pair
    and passes the body's outcome on, an exception included. (3) A scope
    whose body leaves anything else than the pushed pair on top ends in an
    [AssertionError], or in the [IndexError] of the pop when the body left
    an empty list: it never ends normally. *)
Theorem stack_balance :
  (∀ w c, disciplined w = true →
     assumed_compatibilities (snd (exec w c)) = assumed_compatibilities c
     ∧ length (assumed_compatibilities (snd (exec w c)))
       = length (assumed_compatibilities c)
     ∧ fst (exec w c) ≠ Raise AssertionError
     ∧ AssertFailed ∉ events_since c (snd (exec w c)))
  ∧ (∀ A l r (body : M A) c o c2,
       body (set_assumed (λ s, s ++ [(l, r)]) c) = (o, c2) →
       assumed_compatibilities c2 = assumed_compatibilities c ++ [(l, r)] →
       assume_compatibility l r body c
       = (o, set_assumed (λ _, assumed_compatibilities c) c2))
  ∧ (∀ A l r (body : M A) c o c2,
       body (set_assumed (λ s, s ++ [(l, r)]) c) = (o, c2) →
       last (assumed_compatibilities c2) ≠ Some (l, r) →
       ∃ e c3, assume_compatibility l r body c = (Raise e, c3)
               ∧ (e = AssertionError ∨ e = IndexError)).
Proof.
  split_and!.
  - intros w c Hd.
    destruct (exec_disciplined w Hd c) as (o & evs & -> & Ha & _ & Hf & _).
    simpl. split_and!; try done.
    by rewrite (events_since_app c _ evs).
  - intros A l r body c o c2 Hbody Hs. unfold assume_compatibility.
    rewrite Hbody, Hs, list_pop_snoc. by rewrite decide_True.
  - intros A l r body c o c2 Hbody Htop. unfold assume_compatibility.
    rewrite Hbody.
    destruct (list_pop (assumed_compatibilities c2)) as [[new_pair rest]|] eqn:Hp.
    + apply list_pop_last in Hp. rewrite decide_False by congruence.
      eexists _, _. split; [done|by left].
    + eexists _, _. split; [done|by right].
Qed.

Lemma stack_balance_witness :
  assumed_compatibilities (snd (exec SampleStack.nested SampleStack.reversed_assumed))
  = [(SampleStack.dB, SampleStack.dA)].
Proof.
  exact (proj1 (proj1 stack_balance SampleStack.nested
                  SampleStack.reversed_assumed eq_refl)).
Defined.

(** C3, as stated, fails in two ways: a pair of a descriptor with itself is
    its own reverse, so the question about the reverse pair is answered yes
    inside the scope; and a reverse pair that was assumed before stays
    assumed. In both cases the pair pushed was not on the stack. *)
Lemma reverse_pair_assumed :
  ((SampleStack.dA, SampleStack.dA) ∉ assumed_compatibilities new_checker)
  ∧ events (snd (exec (With SampleStack.dA SampleStack.dA
                         (IfAssumed SampleStack.dA SampleStack.dA Pass Pass))
                   new_checker))
    = [Asked SampleStack.dA SampleStack.dA true]
  ∧ ((SampleStack.dA, SampleStack.dB)
     ∉ assumed_compatibilities SampleStack.reversed_assumed)
  ∧ events (snd (exec (With SampleStack.dA SampleStack.dB
                         (IfAssumed SampleStack.dB SampleStack.dA Pass Pass))
                   SampleStack.reversed_assumed))
    = [Asked SampleStack.dB SampleStack.dA true].
Proof.
  split_and!.
  - apply not_elem_of_nil.
  - by vm_compute.
  - intros [[=]|[]%elem_of_nil]%elem_of_cons.
  - by vm_compute.
Qed.

(** C3, amended. For a pair [(l, r)] that is not on the stack and a scope
    whose body is properly nested work: (1) every question about [(l, r)]
    asked inside the scope is answered yes; (2) after the scope the answer
    is no; (3) when [l] and [r] differ, the reverse pair is not on the stack
    and the body opens no scope for it, every question about [(r, l)] is
    answered no, before, inside and after the scope. *)
Theorem cycle_breaking (l r : TypeObject) (body : Work) (c : Checker) :
  disciplined body = true →
  (l, r) ∉ assumed_compatibilities c →
  let c' := snd (exec (With l r body) c) in
  (∀ b, Asked l r b ∈ events_since c c' → b = true)
  ∧ fst (can_assume_compatibility l r c') = Ok false
  ∧ (l ≠ r → (r, l) ∉ assumed_compatibilities c → assumes (r, l) body = false →
     fst (can_assume_compatibility r l c) = Ok false
     ∧ (∀ b, Asked r l b ∈ events_since c c' → b = false)
     ∧ fst (can_assume_compatibility r l c') = Ok false).
Proof.
  intros Hd Hnotin c'.
  assert (HdW : disciplined (With l r body) = true) by done.
  destruct (exec_disciplined body Hd (set_assumed (λ s, s ++ [(l, r)]) c))
    as (o & evs & He & _ & _ & _ & Ht & Hn).
  assert (Hc' : c' = set_events (λ s, s ++ evs) c).
  { unfold c'. simpl. unfold assume_compatibility. rewrite He. simpl.
    rewrite list_pop_snoc, decide_True by done. by destruct c. }
  rewrite Hc'. rewrite (events_since_app c _ evs) by done.
  unfold can_assume_compatibility. simpl. split_and!.
  - intros b Hin. eapply Ht; [done|]. simpl. apply elem_of_app. right. left.
  - by rewrite bool_decide_eq_false_2.
  - intros Hne Hrev Hbody. split_and!.
    + by rewrite bool_decide_eq_false_2.
    + intros b Hin. eapply Hn; [done| |done]. simpl.
      intros [?|Heq%list_elem_of_singleton]%elem_of_app; [done|]. congruence.
    + by rewrite bool_decide_eq_false_2.
Qed.

Lemma cycle_breaking_witness :
  fst (can_assume_compatibility SampleStack.dA SampleStack.dB
         (snd (exec (With SampleStack.dA SampleStack.dB SampleStack.nested)
                 new_checker)))
  = Ok false.
Proof.
  refine (proj1 (proj2 (cycle_breaking SampleStack.dA SampleStack.dB
                          SampleStack.nested new_checker eq_refl _))).
  apply not_elem_of_nil.
Defined.

(** ** Instances *)

Lemma get_additional_bases_union_witness :
  fst (get_additional_bases SampleStubs.stub_world Sample.P new_checker)
  = Ok {[SampleStubs.X; SampleStubs.Y]}.
Proof.
  exact (proj1 (proj2 (get_additional_bases_union SampleStubs.stub_world
                         Sample.P new_checker))
           SampleStubs.P1 SampleStubs.P2 SampleStubs.X SampleStubs.Y
           eq_refl eq_refl eq_refl).
Defined.


(** * Further properties of the module *)

(** ** Providers: order of calls and failures *)

(** X1. Providers are called in registration order and the first one that
    raises ends the call: its exception is the outcome, exactly the
    providers up to and including it have been called, and nothing else of
    the checker has changed. *)
Theorem additional_bases_first_failure
    (W : World) (k : TypeKey) (c : Checker)
    (before rest : list BaseProvider) (p : BaseProvider) (e : Exn) :
  providers W = before ++ p :: rest →
  (∀ q, q ∈ before → is_Ok (q k) = true) →
  p k = Raise e →
  get_additional_bases W k c
  = (Raise e,
     set_events (λ l, l ++ replicate (S (length before)) (ProviderCalled k)) c).
Proof.
  intros HW Hbefore Hp. unfold get_additional_bases. rewrite HW.
  rewrite provider_loop_app.
  destruct (provider_loop_returns k before ∅ c Hbefore) as (s & c1 & Hrun).
  erewrite bind_Ok by done.
  apply provider_loop_Ok in Hrun as (_ & _ & ->).
  simpl. unfold_monad. rewrite Hp. simpl. rewrite set_events_app.
  by rewrite <- replicate_cons_app.
Qed.

Lemma additional_bases_first_failure_witness :
  get_additional_bases SampleCache.failing_world Sample.P new_checker
  = (Raise (UserError 1),
     set_events (λ l, l ++ [ProviderCalled Sample.P]) new_checker).
Proof.
  refine (additional_bases_first_failure SampleCache.failing_world Sample.P
            new_checker [] [] SampleCache.failing_provider (UserError 1)
            eq_refl _ eq_refl).
  intros q Hq. by apply elem_of_nil in Hq.
Defined.

(** X2. A call that returns has called every registered provider once, and
    nothing is remembered: a second call on the resulting checker returns
    the same set and calls every provider again. *)
Theorem additional_bases_not_memoized
    (W : World) (k : TypeKey) (c c' : Checker) (s : gset TypeKey) :
  get_additional_bases W k c = (Ok s, c') →
  events_since c c' = replicate (length (providers W)) (ProviderCalled k)
  ∧ type_object_cache c' = type_object_cache c
  ∧ objects c' = objects c
  ∧ ∃ c'', get_additional_bases W k c' = (Ok s, c'')
           ∧ events_since c' c''
             = replicate (length (providers W)) (ProviderCalled k).
Proof.
  intros Hrun. pose proof Hrun as Hrun'.
  apply provider_loop_Ok in Hrun' as (Hall & Hs & ->).
  split_and!; try done.
  - by apply events_since_app.
  - destruct (provider_loop_returns k (providers W) ∅
      (set_events (λ l, l ++ replicate (length (providers W)) (ProviderCalled k)) c)
      Hall) as (s2 & c2 & Hrun2).
    assert (s2 = s) as ->.
    { pose proof Hrun2 as (_ & Hs2 & _)%provider_loop_Ok.
      apply set_eq. intros x. by rewrite Hs, Hs2. }
    exists c2. split; [done|].
    apply provider_loop_Ok in Hrun2 as (_ & _ & ->). by apply events_since_app.
Qed.

Lemma additional_bases_not_memoized_witness :
  events_since new_checker
    (snd (get_additional_bases SampleStubs.stub_world Sample.P new_checker))
  = [ProviderCalled Sample.P; ProviderCalled Sample.P].
Proof.
  refine (proj1 (additional_bases_not_memoized SampleStubs.stub_world Sample.P
                   new_checker _ {[SampleStubs.X; SampleStubs.Y]} _)).
  vm_compute. reflexivity.
Defined.

(** ** The builder, branch by branch *)

(** When no provider raises, [get_additional_bases] returns the union of the
    provider results and only extends the log. *)
Lemma additional_bases_total W k c :
  (∀ p, p ∈ providers W → is_Ok (p k) = true) →
  ∃ ab, get_additional_bases W k c
        = (Ok ab, set_events
                    (λ l, l ++ replicate (length (providers W)) (ProviderCalled k)) c)
        ∧ ∀ x, x ∈ ab ↔ ∃ p s', p ∈ providers W ∧ p k = Ok s' ∧ x ∈ s'.
Proof.
  intros Hall.
  destruct (provider_loop_returns k (providers W) ∅ c Hall) as (ab & c1 & Hrun).
  exists ab. pose proof Hrun as (_ & _ & ->)%provider_loop_Ok.
  split; [done|]. by apply get_additional_bases_Ok in Hrun as [_ ?].
Qed.



(** X4. A [super] proxy is never a protocol: whatever the stubs and the
    attributes of the proxy say, when no provider raises the builder
    returns a new descriptor without members whose bases are exactly what
    the providers returned for the proxy. *)
Theorem build_super_proxy (W : World) (t : nat) (c : Checker) :
  (∀ p, p ∈ providers W → is_Ok (p (KSuper t)) = true) →
  ∃ d c',
    _build_type_object W (KSuper t) c = (Ok (length (objects c)), c')
    ∧ deref c' (length (objects c)) = Some d
    ∧ typ d = KSuper t
    ∧ is_protocol d = false
    ∧ protocol_members d = ∅
    ∧ ∀ x, x ∈ base_classes d ↔
           ∃ p s', p ∈ providers W ∧ p (KSuper t) = Ok s' ∧ x ∈ s'.
Proof.
  intros Hall.
  destruct (additional_bases_total W (KSuper t)
    (set_events (λ l, l ++ [BuilderCalled (KSuper t)]) c) Hall) as (ab & Hab & Hs).
  unfold _build_type_object. unfold_monad. simpl. rewrite Hab.
  eexists _, _. split; [done|].
  split; [unfold deref; simpl; by apply list_lookup_middle|].
  by split_and!.
Qed.

Lemma build_super_proxy_witness :
  ∃ d c',
    _build_type_object SampleStubs.stub_world (KSuper 20) new_checker
    = (Ok 0, c')
    ∧ deref c' 0 = Some d ∧ typ d = KSuper 20
    ∧ is_protocol d = false ∧ protocol_members d = ∅
    ∧ ∀ x, x ∈ base_classes d ↔
           ∃ p s', p ∈ providers SampleStubs.stub_world
                   ∧ p (KSuper 20) = Ok s' ∧ x ∈ s'.
Proof.
  refine (build_super_proxy SampleStubs.stub_world 20 new_checker _).
  intros p [->|[->|[]%elem_of_nil]%elem_of_cons]%elem_of_cons; reflexivity.
Defined.

(** ** Members extracted from runtime classes *)

Lemma extract_elem W base s :
  _extract_protocol_members W base = Ok s →
  ∀ x, x ∈ s ↔
    is_marker W base = false
    ∧ ((∃ dict, attr_dict W base = Found dict
                ∧ x ∈ dict ∧ x ∉ EXCLUDED_PROTOCOL_MEMBERS)
       ∨ (∃ annotations, attr_annotations W base = Found annotations
                         ∧ x ∈ annotations)).
Proof.
  destruct (is_marker W base) eqn:Hm.
  - rewrite extract_marker_empty by done. intros [= <-] x. split.
    + by intros ?%not_elem_of_empty.
    + by intros [? _].
  - rewrite extract_class_eq by done. unfold_monad.
    destruct (attr_dict W base) as [dict| |e]; simpl; try done.
    destruct (version_ge_3_10 W), (attr_annotations W base) as [ann| |e];
      simpl; try done; intros [= <-] x.
    all: rewrite ?elem_of_union, elem_of_difference, ?elem_of_list_to_set.
    all: split.
    all: try (intros [[Hx Hex]|Hx]; (split; [done|]);
              [left; by exists dict|right; by exists ann]).
    all: try (intros [_ [(d' & [= <-] & Hx & Hex)|(a' & [= <-] & Hx)]];
              [by left|by right]).
    all: try (intros [Hx Hex]; (split; [done|]); left; by exists dict).
    all: intros [_ [(d' & [= <-] & Hx & Hex)|(a' & [=] & _)]]; done.
Qed.

Lemma extract_from_bases_elem W bases s :
  extract_from_bases W bases = Ok s →
  ∀ x, x ∈ s ↔
    ∃ base, base ∈ bases ∧ is_marker W base = false
      ∧ ((∃ dict, attr_dict W base = Found dict
                  ∧ x ∈ dict ∧ x ∉ EXCLUDED_PROTOCOL_MEMBERS)
         ∨ (∃ annotations, attr_annotations W base = Found annotations
                           ∧ x ∈ annotations)).
Proof.
  revert s. induction bases as [|base bases IH]; simpl; intros s.
  - intros [= <-] x. split; [by intros ?%not_elem_of_empty|].
    by intros (b & ?%elem_of_nil & _).
  - unfold_monad.
    destruct (_extract_protocol_members W base) as [m|e] eqn:Hm; [|done].
    destruct (extract_from_bases W bases) as [ms|e] eqn:Hms; [|done].
    intros [= <-] x. rewrite elem_of_union.
    rewrite (extract_elem W base m Hm x), (IH ms eq_refl x). split.
    + intros [[Hmk H]|(b & Hb & Hmk & H)].
      * exists base. split; [left|done].
      * exists b. split; [by right|done].
    + intros (b & [->|Hb]%elem_of_cons & Hmk & H); [by left|].
      right. by exists b.
Qed.

(** X5. For a class that is a protocol at runtime only, a descriptor the
    builder returns has [is_protocol] true, and its members are exactly: the
    key names of [__dict__] outside the exclusion set, and the key names of
    [__annotations__] (where the class has them), of the classes of the
    linearization other than [object], [Generic] and [Protocol]. *)
Theorem build_runtime_protocol
    (W : World) (t : nat) (c c' : Checker) (r : Ref) :
  ts_is_protocol W (KType t) = false →
  is_instance_of_typing_name W (KType t) "_ProtocolMeta" = true →
  safe_getattr (attr_is_protocol W (KType t)) false = true →
  _build_type_object W (KType t) c = (Ok r, c') →
  ∃ d, deref c' r = Some d
       ∧ typ d = KType t
       ∧ is_protocol d = true
       ∧ ∀ x, x ∈ protocol_members d ↔
           ∃ base, base ∈ get_mro W (KType t) ∧ is_marker W base = false
             ∧ ((∃ dict, attr_dict W base = Found dict
                         ∧ x ∈ dict ∧ x ∉ EXCLUDED_PROTOCOL_MEMBERS)
                ∨ (∃ annotations, attr_annotations W base = Found annotations
                                  ∧ x ∈ annotations)).
Proof.
  intros Hts Hinst Hattr. unfold _build_type_object. unfold_monad. simpl.
  destruct (get_additional_bases W (KType t) _) as [[ab|e] c1]; [|done].
  rewrite Hts, Hinst, Hattr. simpl.
  destruct (extract_from_bases W (get_mro W (KType t))) as [members|e] eqn:Hex;
    [|done].
  intros [= <- <-]. eexists. split; [apply deref_new_TypeObject|].
  split_and!; try done. by apply extract_from_bases_elem.
Qed.

Lemma build_runtime_protocol_witness :
  ∃ d, deref (snd (_build_type_object SampleLegacy.legacy_world Sample.P
                     new_checker)) 0 = Some d
       ∧ typ d = Sample.P
       ∧ is_protocol d = true
       ∧ ∀ x, x ∈ protocol_members d ↔
           ∃ base, base ∈ get_mro SampleLegacy.legacy_world Sample.P
             ∧ is_marker SampleLegacy.legacy_world base = false
             ∧ ((∃ dict, attr_dict SampleLegacy.legacy_world base = Found dict
                         ∧ x ∈ dict ∧ x ∉ EXCLUDED_PROTOCOL_MEMBERS)
                ∨ (∃ annotations,
                     attr_annotations SampleLegacy.legacy_world base
                     = Found annotations ∧ x ∈ annotations)).
Proof.
  refine (build_runtime_protocol SampleLegacy.legacy_world 10 new_checker _ 0
            eq_refl eq_refl eq_refl _).
  vm_compute. reflexivity.
Defined.

(** X6. Member extraction from one class returns exactly when the class is
    [object] or a typing marker, or its [__dict__] can be read and its
    [__annotations__] is either present or, before 3.10 only, absent; and
    from 3.10 on a class without [__annotations__] ends the extraction in
    an [AttributeError]. *)
Theorem extract_returns_iff (W : World) (base : TypeKey) :
  ((∃ s, _extract_protocol_members W base = Ok s) ↔
   (is_marker W base = false → reads_succeed W base))
  ∧ (is_marker W base = false → version_ge_3_10 W = true →
     (∃ names, attr_dict W base = Found names) →
     attr_annotations W base = Missing →
     _extract_protocol_members W base = Raise AttributeError).
Proof.
  split.
  - split; [|apply extract_returns].
    intros [s Hs] Hm. rewrite extract_class_eq in Hs by done.
    unfold_monad. unfold reads_succeed.
    destruct (attr_dict W base) as [dict| |e]; simpl in Hs; try done.
    split; [by eexists|].
    by destruct (version_ge_3_10 W), (attr_annotations W base) as [ann| |e].
  - intros Hm Hv [names Hd] Ha. rewrite extract_class_eq by done.
    by rewrite Hd, Hv, Ha.
Qed.

Lemma extract_from_bases_returns_iff W bases :
  (∃ s, extract_from_bases W bases = Ok s) ↔
  (∀ base, base ∈ bases → is_marker W base = false → reads_succeed W base).
Proof.
  split; [|apply extract_from_bases_returns].
  induction bases as [|base bases IH]; simpl.
  - by intros _ b ?%elem_of_nil.
  - unfold_monad. intros [s Hs].
    destruct (_extract_protocol_members W base) as [m|e] eqn:Hm; [|done].
    destruct (extract_from_bases W bases) as [ms|e] eqn:Hms; [|done].
    intros b [->|Hb]%elem_of_cons.
    + apply (proj1 (extract_returns_iff W base)). by exists m.
    + apply IH; [by exists ms|done].
Qed.

(** X7. The order of the linearization does not matter: two lists of
    classes with the same elements give the same member set, whenever the
    extraction over one of them returns. *)
Theorem extract_from_bases_order (W : World) (bases bases' : list TypeKey)
    (s : gset string) :
  (∀ base, base ∈ bases ↔ base ∈ bases') →
  extract_from_bases W bases = Ok s →
  extract_from_bases W bases' = Ok s.
Proof.
  intros Hsame Hs.
  destruct (proj2 (extract_from_bases_returns_iff W bases')) as [s' Hs'].
  { intros b Hb. apply (proj1 (extract_from_bases_returns_iff W bases));
      [by exists s|by apply Hsame]. }
  rewrite Hs'. f_equal. apply set_eq. intros x.
  rewrite (extract_from_bases_elem W bases' s' Hs' x).
  rewrite (extract_from_bases_elem W bases s Hs x).
  split; intros (b & Hb & H); exists b; (split; [by apply Hsame|done]).
Qed.

Lemma extract_from_bases_order_witness :
  extract_from_bases Sample.runtime_world
    [object; Sample.Generic; Sample.P; Sample.Protocol; Sample.P]
  = Ok {[ "meth"%string; "__doc__"%string ]}.
Proof.
  refine (extract_from_bases_order Sample.runtime_world
            [Sample.P; Sample.Protocol; Sample.Generic; object] _ _ _ _).
  - intros b. rewrite !elem_of_cons, !elem_of_nil. tauto.
  - vm_compute. reflexivity.
Defined.


Lemma extract_returns_iff_witness :
  _extract_protocol_members Sample.runtime_world Sample.P
  ≠ Raise AttributeError
  ∧ _extract_protocol_members SampleBare.bare_world Sample.P
    = Raise AttributeError.
Proof.
  split; [by vm_compute|].
  refine (proj2 (extract_returns_iff SampleBare.bare_world Sample.P)
            eq_refl eq_refl _ eq_refl).
  by eexists.
Defined.


(** ** The descriptor store over a run *)

(** What [make_type_object] does to the store: nothing, or it appends the
    one descriptor that the builder constructed. *)
Lemma make_type_object_store W k c :
  objects (snd (make_type_object W k c)) = objects c
  ∨ ∃ r c1 d, _build_type_object W k c = (Ok r, c1)
              ∧ objects c1 = objects c ++ [d]
              ∧ objects (snd (make_type_object W k c)) = objects c ++ [d].
Proof.
  pose proof (build_state W k c) as Hb.
  destruct (hash_error W k) as [e|] eqn:Hh.
  - rewrite (make_type_object_unhashable W k c e) by done.
    destruct (_build_type_object W k c) as [[r|e'] c1];
      destruct Hb as (_ & _ & _ & Hb); simpl.
    + destruct Hb as (_ & d & Ho & _). right. by exists r, c1, d.
    + by left.
  - destruct (type_object_cache c !! k) as [r|] eqn:Hk.
    + rewrite (make_type_object_hit W k c r) by done. by left.
    + rewrite make_type_object_miss by done.
      destruct (_build_type_object W k c) as [[r|e'] c1];
        destruct Hb as (_ & _ & _ & Hb); simpl.
      * destruct Hb as (_ & d & Ho & _). right. by exists r, c1, d.
      * by left.
Qed.

Section store_invariant.
Variable W : World.
Variable Q : TypeObject → Prop.
Hypothesis built_Q : ∀ k c r c' d,
  _build_type_object W k c = (Ok r, c') → objects c' = objects c ++ [d] → Q d.

(** A property of every descriptor the builder constructs holds of every
    descriptor in the store of a run. *)
Lemma store_invariant c r d : reachable W c → deref c r = Some d → Q d.
Proof.
  intros Hreach. revert r d.
  induction Hreach as [|c k _ IH|c k _ IH|c w _ IH]; intros r d; unfold deref.
  - simpl. by rewrite lookup_nil.
  - destruct (make_type_object_store W k c) as [->|(r' & c1 & d' & Hb & Ho & ->)].
    + apply IH.
    + intros [Hold|[_ Hnew]]%lookup_app_Some; [by eapply IH|].
      destruct (r - length (objects c)); simpl in Hnew; [|done].
      injection Hnew as <-. by eapply built_Q.
  - destruct (get_additional_bases_state W k c) as [n ->]. apply IH.
  - destruct (exec_frame w c) as [_ ->]. apply IH.
Qed.
End store_invariant.

(** Every descriptor the builder constructs without the protocol flag has
    no members. *)
Lemma built_members_only_if_protocol W k c r c' d :
  _build_type_object W k c = (Ok r, c') → objects c' = objects c ++ [d] →
  is_protocol d = false → protocol_members d = ∅.
Proof.
  assert (Hlast : ∀ (l : list TypeObject) x y, l ++ [x] = l ++ [y] → x = y).
  { intros l x y H. apply app_inv_head in H. congruence. }
  destruct k as [t|t|name]; [| |rewrite build_synthetic_eq];
    [unfold _build_type_object; unfold_monad; simpl ..|].
  - destruct (get_additional_bases_state W (KType t)
      (set_events (λ l, l ++ [BuilderCalled (KType t)]) c)) as [n Hst].
    destruct (get_additional_bases W (KType t) _) as [[ab|e] c1]; [|done].
    simpl in Hst. subst c1.
    destruct (ts_is_protocol W (KType t)).
    { intros [= <- <-] Ho. simpl in Ho. apply Hlast in Ho. by subst d. }
    destruct (_ && _).
    + destruct (extract_from_bases W _) as [m|e]; [|done].
      intros [= <- <-] Ho. simpl in Ho. apply Hlast in Ho. by subst d.
    + intros [= <- <-] Ho. simpl in Ho. apply Hlast in Ho. by subst d.
  - destruct (get_additional_bases_state W (KSuper t)
      (set_events (λ l, l ++ [BuilderCalled (KSuper t)]) c)) as [n Hst].
    destruct (get_additional_bases W (KSuper t) _) as [[ab|e] c1]; [|done].
    simpl in Hst. subst c1.
    intros [= <- <-] Ho. simpl in Ho. apply Hlast in Ho. by subst d.
  - intros [= <- <-] Ho. simpl in Ho. apply Hlast in Ho. subst d. simpl.
    by intros ->.
Qed.

(** X9. In every state of a run, a descriptor in the store has protocol
    members only if it is a protocol. *)
Theorem members_only_if_protocol
    (W : World) (c : Checker) (r : Ref) (d : TypeObject) :
  reachable W c → deref c r = Some d →
  protocol_members d ≠ ∅ → is_protocol d = true.
Proof.
  intros Hreach Hr Hne. destruct (is_protocol d) eqn:Hp; [done|].
  exfalso. apply Hne.
  apply (store_invariant W (λ d, is_protocol d = false → protocol_members d = ∅)
           (built_members_only_if_protocol W) c r d); done.
Qed.

Lemma members_only_if_protocol_witness :
  ∃ d, deref (snd (make_type_object Sample.runtime_world Sample.P new_checker))
         0 = Some d ∧ is_protocol d = true.
Proof.
  eexists. split; [reflexivity|].
  refine (members_only_if_protocol Sample.runtime_world _ 0 _
            (reachable_resolve _ _ Sample.P (reachable_new _)) eq_refl _).
  intros H. apply (f_equal (λ s : gset string, bool_decide ("meth"%string ∈ s))) in H.
  vm_compute in H. discriminate H.
Defined.

Lemma resolve_all_reachable W keys c :
  reachable W c → reachable W (snd (resolve_all W keys c)).
Proof.
  revert c. induction keys as [|k keys IH]; intros c Hr; simpl; [done|].
  pose proof (reachable_resolve W c k Hr) as Hstep.
  destruct (make_type_object W k c) as [r c']. simpl in Hstep.
  specialize (IH c' Hstep). by destruct (resolve_all W keys c').
Qed.

Lemma resolve_all_store W keys c r d :
  deref c r = Some d → deref (snd (resolve_all W keys c)) r = Some d.
Proof.
  revert c. induction keys as [|k keys IH]; intros c Hr; simpl; [done|].
  assert (deref (snd (make_type_object W k c)) r = Some d) as Hstep.
  { unfold deref in *.
    destruct (make_type_object_store W k c) as [->|(_ & _ & d' & _ & _ & ->)];
      [done|by apply lookup_app_l_Some]. }
  destruct (make_type_object W k c) as [r' c']. simpl in Hstep.
  specialize (IH c' Hstep). by destruct (resolve_all W keys c').
Qed.

(** X10. In a run, a descriptor that [make_type_object] returns describes
    the key it was asked for, whether it came from the cache or from the
    builder, and it stays in the store, unchanged, whatever is resolved
    afterwards. *)
Theorem resolved_describes_key
    (W : World) (c c' : Checker) (k : TypeKey) (r : Ref) :
  reachable W c →
  make_type_object W k c = (Ok r, c') →
  ∃ d, deref c' r = Some d
       ∧ typ d = k
       ∧ ∀ keys, deref (snd (resolve_all W keys c')) r = Some d.
Proof.
  intros Hreach Hcall.
  assert (∃ d, deref c' r = Some d ∧ typ d = k) as (d & Hd & Hk).
  { destruct (hash_error W k) as [e|] eqn:Hh.
    - rewrite (make_type_object_unhashable W k c e Hh) in Hcall.
      pose proof (build_state W k c) as Hb. rewrite Hcall in Hb.
      destruct Hb as (_ & _ & _ & -> & d & Ho & Hd). exists d.
      split; [|done]. unfold deref. rewrite Ho. by apply list_lookup_middle.
    - pose proof (reachable_resolve W c k Hreach) as Hreach'.
      rewrite Hcall in Hreach'. simpl in Hreach'.
      destruct (cache_inv_reachable W c' Hreach') as [H1 _].
      apply H1. by eapply make_type_object_caches. }
  exists d. split_and!; try done. intros keys. by apply resolve_all_store.
Qed.

Lemma resolved_describes_key_witness :
  ∃ d, deref (snd (make_type_object SampleStubs.stub_world SampleLegacy.A
                     new_checker)) 0 = Some d
       ∧ typ d = SampleLegacy.A
       ∧ ∀ keys,
           deref (snd (resolve_all SampleStubs.stub_world keys
                         (snd (make_type_object SampleStubs.stub_world
                                 SampleLegacy.A new_checker)))) 0 = Some d.
Proof.
  refine (resolved_describes_key SampleStubs.stub_world new_checker _
            SampleLegacy.A 0 (reachable_new _) _).
  vm_compute. reflexivity.
Defined.

(** X11. A key whose membership test raises is never stored: in every
    state of a run, every key of the cache can be hashed. *)
Theorem cached_keys_hashable
    (W : World) (c : Checker) (k : TypeKey) (r : Ref) :
  reachable W c → type_object_cache c !! k = Some r → hash_error W k = None.
Proof.
  intros Hreach. revert k r.
  induction Hreach as [|c k' _ IH|c k' _ IH|c w _ IH]; intros k r.
  - simpl. by rewrite lookup_empty.
  - pose proof (build_state W k' c) as Hb.
    destruct (hash_error W k') as [e|] eqn:Hh.
    + rewrite (make_type_object_unhashable W k' c e) by done.
      destruct (_build_type_object W k' c) as [o c1].
      destruct Hb as (Hc & _). simpl. rewrite Hc. apply IH.
    + destruct (type_object_cache c !! k') as [r'|] eqn:Hk'.
      * rewrite (make_type_object_hit W k' c r') by done. apply IH.
      * rewrite make_type_object_miss by done.
        destruct (_build_type_object W k' c) as [[r'|e] c1];
          destruct Hb as (Hc & _); simpl; rewrite Hc; [|apply IH].
        destruct (decide (k' = k)) as [<-|Hne]; [done|].
        rewrite lookup_insert_ne by done. apply IH.
  - destruct (get_additional_bases_state W k' c) as [n ->]. apply IH.
  - destruct (exec_frame w c) as [-> _]. apply IH.
Qed.

Lemma cached_keys_hashable_witness :
  hash_error Sample.runtime_world Sample.P = None.
Proof.
  refine (cached_keys_hashable Sample.runtime_world
            (snd (make_type_object Sample.runtime_world Sample.P new_checker))
            Sample.P 0 (reachable_resolve _ _ Sample.P (reachable_new _)) _).
  vm_compute. reflexivity.
Defined.

(** X12. The cache is never invalidated: once a call for a hashable key has
    returned a descriptor, a later call returns that same object and
    changes nothing even when the configuration has changed in between
    (other providers, other stubs, another runtime), as long as the key can
    still be hashed. *)
Theorem cache_survives_reconfiguration
    (W W' : World) (c c1 : Checker) (k : TypeKey) (r : Ref) :
  hash_error W k = None → hash_error W' k = None →
  make_type_object W k c = (Ok r, c1) →
  make_type_object W' k c1 = (Ok r, c1).
Proof.
  intros Hh Hh' Hcall. apply make_type_object_hit; [done|].
  exact (make_type_object_caches W k c r c1 Hh Hcall).
Qed.

Lemma cache_survives_reconfiguration_witness :
  make_type_object SampleCache.failing_world SampleLegacy.A
    (snd (make_type_object SampleStubs.stub_world SampleLegacy.A new_checker))
  = (Ok 0,
     snd (make_type_object SampleStubs.stub_world SampleLegacy.A new_checker)).
Proof.
  refine (cache_survives_reconfiguration SampleStubs.stub_world
            SampleCache.failing_world new_checker _ SampleLegacy.A 0
            eq_refl eq_refl _).
  vm_compute. reflexivity.
Defined.
